(** * intrusive_ptr.h: an intrusive reference-counted pointer

    A shallow embedding of [intrusive_ptr<T>], of the counter mixin
    [intrusive_ref_counter<T>] and of the two free functions that connect
    them, followed by the properties of the code.

    Counted objects live in a store indexed by address; handle objects
    ([intrusive_ptr] values, which have identity in C++ because members
    mutate them through [this] and through references) live in a second
    store indexed by the storage they occupy.  Every function of the header
    is a computation over the two stores that either returns or stops at
    undefined behaviour. *)

From stdpp Require Import gmap list.
From Stdlib Require Import ZArith Lia.

Local Open Scope Z_scope.

(** ** Integers of the header *)

(** [size_t] and [unsigned int] on the LP64 and LLP64 data models. *)
Definition size_t_bits : Z := 64.
Definition unsigned_int_bits : Z := 32.

Definition to_size_t (z : Z) : Z := z mod 2 ^ size_t_bits.
Definition to_unsigned_int (z : Z) : Z := z mod 2 ^ unsigned_int_bits.

Definition is_size_t (z : Z) : Prop := 0 <= z < 2 ^ size_t_bits.

(** ** Data *)

(** An address; [nullptr] is address zero. *)
Abbreviation addr := N.
Definition nullptr : addr := 0%N.

(** The storage of a handle object (a variable, a member, a temporary). *)
Abbreviation var := N.

(** [intrusive_ref_counter<T>]: [mutable std::atomic<size_t> ref_count{0}]. *)
Record intrusive_ref_counter := { ref_count : Z }.

(** [intrusive_ptr<T>]: [T* ptr{nullptr}]. *)
Record intrusive_ptr := { ptr : addr }.

#[global] Instance intrusive_ptr_eq_dec : EqDecision intrusive_ptr.
Proof. solve_decision. Defined.

#[global] Instance intrusive_ref_counter_eq_dec : EqDecision intrusive_ref_counter.
Proof. solve_decision. Defined.

(** The class whose destructor a delete-expression runs.  The operand of
    [delete] has a static type; when that type's destructor is not virtual
    the destructor of the static type is the one that is called. *)
Inductive destructor :=
  | of_intrusive_ref_counter   (* ~intrusive_ref_counter<Derived>() *)
  | of_Derived.                (* ~Derived(), the concrete pointee *)

#[global] Instance destructor_eq_dec : EqDecision destructor.
Proof. solve_decision. Defined.

Record memory := {
  objects : gmap N intrusive_ref_counter;  (* live counted objects *)
  handles : gmap N intrusive_ptr;          (* live handle objects *)
  deleted : list (N * destructor)          (* delete-expressions, oldest first *)
}.

Definition set_objects (f : gmap N intrusive_ref_counter -> gmap N intrusive_ref_counter)
    (m : memory) : memory :=
  {| objects := f (objects m); handles := handles m; deleted := deleted m |}.

Definition set_handles (f : gmap N intrusive_ptr -> gmap N intrusive_ptr)
    (m : memory) : memory :=
  {| objects := objects m; handles := f (handles m); deleted := deleted m |}.

(** ** Computations *)

Inductive fault :=
  | null_dereference              (* p->... with p == nullptr *)
  | dangling (p : addr)           (* p->... where no object lives at p *)
  | invalid_delete (p : addr)     (* delete p where no object lives at p *)
  | bad_storage (x : var).        (* a handle used outside its lifetime *)

Inductive outcome (A : Type) :=
  | Ok (a : A) (m : memory)
  | Fault (f : fault).
Arguments Ok {A} a m.
Arguments Fault {A} f.

Definition M (A : Type) : Type := memory -> outcome A.

Definition ret {A} (a : A) : M A := fun m => Ok a m.

Definition bind {A B} (c : M A) (k : A -> M B) : M B := fun m =>
  match c m with
  | Ok a m' => k a m'
  | Fault f => Fault f
  end.

#[global] Instance M_ret : MRet M := @ret.
#[global] Instance M_bind : MBind M := fun A B k c => bind c k.

(** ** The counter mixin, lines 160 to 186 *)

(** [intrusive_ref_counter() noexcept = default], with [ref_count{0}]. *)
Definition intrusive_ref_counter_default : intrusive_ref_counter :=
  {| ref_count := 0 |}.

(** [intrusive_ref_counter(const intrusive_ref_counter& v) : ref_count(0) {}] *)
Definition intrusive_ref_counter_copy (v : intrusive_ref_counter) : intrusive_ref_counter :=
  {| ref_count := 0 |}.

(** [operator=(const intrusive_ref_counter& v) { return *this; }] *)
Definition intrusive_ref_counter_assign (this v : intrusive_ref_counter) : intrusive_ref_counter :=
  this.

(** [use_count()]: the counter, cast to [unsigned int]. *)
Definition use_count (this : intrusive_ref_counter) : Z :=
  to_unsigned_int (ref_count this).

(** A class that derives from the mixin and declares no copy operations of
    its own: the implicit ones copy the base subobject with the mixin's
    operation and every member with its own. *)
Record derived (members : Type) := {
  base : intrusive_ref_counter;
  fields : members
}.
Arguments base {members} d.
Arguments fields {members} d.

Definition derived_copy {members} (v : derived members) : derived members :=
  {| base := intrusive_ref_counter_copy (base v); fields := fields v |}.

Definition derived_assign {members} (this v : derived members) : derived members :=
  {| base := intrusive_ref_counter_assign (base this) (base v); fields := fields v |}.

(** ** Access to counted objects *)

(** [p->], for [p] that points to a counted object. *)
Definition at_ (p : addr) : M intrusive_ref_counter := fun m =>
  if decide (p = nullptr) then Fault null_dereference
  else match objects m !! p with
       | Some o => Ok o m
       | None => Fault (dangling p)
       end.

Definition put (p : addr) (o : intrusive_ref_counter) : M unit := fun m =>
  Ok tt (set_objects <[p := o]> m).

(** [ref_count.fetch_add(n)] and [ref_count.fetch_sub(n)] on the object at
    [p]: one atomic read-modify-write each, which returns the old value. *)
Definition fetch_add (p : addr) (n : Z) : M Z :=
  o ← at_ p;
  put p {| ref_count := to_size_t (ref_count o + n) |};;
  mret (ref_count o).

Definition fetch_sub (p : addr) (n : Z) : M Z :=
  o ← at_ p;
  put p {| ref_count := to_size_t (ref_count o - n) |};;
  mret (ref_count o).

(** [p->use_count()] *)
Definition use_count_at (p : addr) : M Z :=
  o ← at_ p;
  mret (use_count o).

(** [delete p], for [p] whose static type has the destructor [d]. *)
Definition delete_ (d : destructor) (p : addr) : M unit := fun m =>
  match objects m !! p with
  | Some _ =>
      Ok tt {| objects := delete p (objects m); handles := handles m;
               deleted := deleted m ++ [(p, d)] |}
  | None => Fault (invalid_delete p)
  end.

(** ** The counting protocol, lines 188 to 199 *)

Definition intrusive_ptr_add_ref (p : addr) : M unit :=
  fetch_add p 1;;
  mret tt.

(** [p] has the type [const intrusive_ref_counter<Derived>*], and the
    destructor of the mixin is not virtual. *)
Definition intrusive_ptr_release (p : addr) : M unit :=
  fetch_sub p 1;;
  c ← use_count_at p;
  if c =? 0 then delete_ of_intrusive_ref_counter p else mret tt.

(** ** Handle objects *)

Definition null_handle : intrusive_ptr := {| ptr := nullptr |}.

(** A member access [x.ptr] that reads. *)
Definition get_ptr (x : var) : M addr := fun m =>
  match handles m !! x with
  | Some h => Ok (ptr h) m
  | None => Fault (bad_storage x)
  end.

(** A member access [x.ptr = p] that writes. *)
Definition set_ptr (x : var) (p : addr) : M unit := fun m =>
  match handles m !! x with
  | Some _ => Ok tt (set_handles <[x := {| ptr := p |}]> m)
  | None => Fault (bad_storage x)
  end.

(** The member initialiser [ptr(p)] of a constructor that runs in the
    storage [x]: the lifetime of the handle starts. *)
Definition init_ptr (x : var) (p : addr) : M unit := fun m =>
  match handles m !! x with
  | Some _ => Fault (bad_storage x)
  | None => Ok tt (set_handles <[x := {| ptr := p |}]> m)
  end.

(** The end of a destructor: the lifetime of the handle at [x] is over. *)
Definition end_lifetime (x : var) : M unit := fun m =>
  match handles m !! x with
  | Some _ => Ok tt (set_handles (delete x) m)
  | None => Fault (bad_storage x)
  end.

(** Storage for a temporary: storage that no live handle occupies. *)
Definition temporary : M var := fun m =>
  Ok (fresh (dom (handles m))) m.

(** ** The owning handle, lines 8 to 118 *)

(** The constructors and assignments from [intrusive_ptr<Y>] have the
    bodies of those from [intrusive_ptr<T>], so the definitions below stand
    for both. *)

(** [intrusive_ptr() noexcept = default], with [ptr{nullptr}]. *)
Definition ctor_default (this : var) : M unit :=
  init_ptr this nullptr.

(** [intrusive_ptr(T* p, bool add_ref = true)] *)
Definition ctor_raw (this : var) (p : addr) (add_ref : bool) : M unit :=
  init_ptr this p;;
  if add_ref then
    q ← get_ptr this;
    intrusive_ptr_add_ref q
  else mret tt.

(** [intrusive_ptr(intrusive_ptr const& r)] *)
Definition ctor_copy (this r : var) : M unit :=
  p ← get_ptr r;
  init_ptr this p;;
  q ← get_ptr this;
  if negb (q =? nullptr)%N then intrusive_ptr_add_ref q else mret tt.

(** [intrusive_ptr(intrusive_ptr&& r)] *)
Definition ctor_move (this r : var) : M unit :=
  p ← get_ptr r;
  init_ptr this p;;
  set_ptr r nullptr.

(** [~intrusive_ptr()] *)
Definition dtor (this : var) : M unit :=
  q ← get_ptr this;
  (if negb (q =? nullptr)%N then intrusive_ptr_release q else mret tt);;
  end_lifetime this.

(** [void swap(intrusive_ptr& b)]: [std::swap(ptr, b.ptr)]. *)
Definition swap (this b : var) : M unit :=
  tmp ← get_ptr this;
  q ← get_ptr b;
  set_ptr this q;;
  set_ptr b tmp.

(** [operator=(intrusive_ptr const& r)]: [intrusive_ptr(r).swap( *this)];
    the temporary dies at the end of the full expression. *)
Definition assign_copy (this r : var) : M unit :=
  t ← temporary;
  ctor_copy t r;;
  swap t this;;
  dtor t.

(** [operator=(T* r)] *)
Definition assign_raw (this : var) (r : addr) : M unit :=
  t ← temporary;
  ctor_raw t r true;;
  swap t this;;
  dtor t.

(** [operator=(intrusive_ptr&& r)] *)
Definition assign_move (this r : var) : M unit :=
  t ← temporary;
  ctor_move t r;;
  swap t this;;
  dtor t.

(** [reset()], [reset(T* r)] and [reset(T* r, bool add_ref)] *)
Definition reset (this : var) : M unit :=
  t ← temporary;
  ctor_default t;;
  swap t this;;
  dtor t.

Definition reset_raw (this : var) (r : addr) : M unit :=
  t ← temporary;
  ctor_raw t r true;;
  swap t this;;
  dtor t.

Definition reset_raw_add_ref (this : var) (r : addr) (add_ref : bool) : M unit :=
  t ← temporary;
  ctor_raw t r add_ref;;
  swap t this;;
  dtor t.

(** [T* get() const] *)
Definition get (this : var) : M addr :=
  get_ptr this.

(** [T* detach()] *)
Definition detach (this : var) : M addr :=
  res ← get_ptr this;
  set_ptr this nullptr;;
  mret res.

(** [explicit operator bool() const] *)
Definition operator_bool (this : var) : M bool :=
  p ← get this;
  mret (negb (p =? nullptr)%N).

(** [T& operator*() const]: [*get()].  The reference is given as the
    address of the object it designates; there is none behind a null or a
    dangling address. *)
Definition operator_star (this : var) : M addr :=
  p ← get this;
  at_ p;;
  mret p.

(** [T* operator->() const] *)
Definition operator_arrow (this : var) : M addr :=
  get this.

(** ** Comparisons and the free swap, lines 120 to 158 *)

(** [operator==] and [operator!=] of two handles. *)
Definition operator_eq (a b : var) : M bool :=
  p ← get a;
  q ← get b;
  mret (p =? q)%N.

Definition operator_ne (a b : var) : M bool :=
  p ← get a;
  q ← get b;
  mret (negb (p =? q)%N).

(** [operator==] and [operator!=] of a handle and a raw address. *)
Definition operator_eq_raw (a : var) (b : addr) : M bool :=
  p ← get a;
  mret (p =? b)%N.

Definition operator_ne_raw (a : var) (b : addr) : M bool :=
  p ← get a;
  mret (negb (p =? b)%N).

(** [operator==] and [operator!=] of a raw address and a handle. *)
Definition raw_operator_eq (a : addr) (b : var) : M bool :=
  q ← get b;
  mret (a =? q)%N.

Definition raw_operator_ne (a : addr) (b : var) : M bool :=
  q ← get b;
  mret (negb (a =? q)%N).

(** [operator<]: the order of the addresses. *)
Definition operator_lt (a b : var) : M bool :=
  p ← get a;
  q ← get b;
  mret (p <? q)%N.

(** [void swap(intrusive_ptr<T>& a, intrusive_ptr<T>& b)]: [a.swap(b)]. *)
Definition swap_free (a b : var) : M unit :=
  swap a b.

(** ** Programs and memories the properties are stated on *)

(** [k] copies of the handle at [src], constructed one after the other in
    the storage [next], [next + 1], and so on. *)
Fixpoint copies (k : nat) (src next : var) : M unit :=
  match k with
  | O => mret tt
  | S k' => ctor_copy next src;; copies k' src (N.succ next)
  end.

(** A memory with one counted object, at address 1, whose counter is [c],
    and with the handles [hs]. *)
Definition one_object (c : Z) (hs : list (var * intrusive_ptr)) : memory :=
  {| objects := {[ 1%N := {| ref_count := c |} ]};
     handles := list_to_map hs;
     deleted := [] |}.

(** ** Handles and counters together *)

(** The number of handles that hold the address [p]. *)
Definition holders (H : gmap N intrusive_ptr) (p : addr) : nat :=
  size (filter (fun kv => ptr kv.2 = p) H).

(** What the handle [h] adds to the number of holders of [p]. *)
Definition unit_of (h : intrusive_ptr) (p : addr) : nat :=
  if decide (ptr h = p) then 1%nat else 0%nat.

(** The memory of a program that takes every unit of ownership through a
    handle: a handle that is not null points to a live object, the counter
    of a live object is the number of handles that hold it, and a deleted
    object was deleted once and is gone. *)
Record consistent (m : memory) : Prop := {
  null_is_no_object : objects m !! nullptr = None;
  handles_hold_objects : forall x h,
    handles m !! x = Some h -> ptr h <> nullptr -> is_Some (objects m !! ptr h);
  counter_counts_holders : forall p o,
    objects m !! p = Some o -> ref_count o = Z.of_nat (holders (handles m) p);
  deleted_once : NoDup (deleted m).*1;
  deleted_is_gone : forall p, p ∈ (deleted m).*1 -> objects m !! p = None
}.

(** How the counted objects of [m'] descend from those of [m]: none is
    new, a live one that no handle holds was held by none before, the
    deletions of [m] come first, and an object is gone only by deletion. *)
Record evolves (m m' : memory) : Prop := {
  no_new_object : forall p, is_Some (objects m' !! p) -> is_Some (objects m !! p);
  unheld_was_unheld : forall p,
    is_Some (objects m' !! p) -> holders (handles m') p = 0%nat ->
    holders (handles m) p = 0%nat;
  deletions_extend : deleted m `prefix_of` deleted m';
  gone_is_deleted : forall p,
    is_Some (objects m !! p) -> objects m' !! p = None -> p ∈ (deleted m').*1
}.

(** The statements of a program that uses handles and never takes or
    gives a unit by hand: no [add_ref = false] and no [detach()]. *)
Inductive statement :=
  | declare (x : var)                  (* intrusive_ptr<T> x; *)
  | declare_raw (x : var) (p : addr)   (* intrusive_ptr<T> x(p); *)
  | declare_copy (x r : var)           (* intrusive_ptr<T> x(r); *)
  | declare_move (x r : var)           (* intrusive_ptr<T> x(std::move(r)); *)
  | leave_scope (x : var)              (* the destructor of x *)
  | copy_assign (x r : var)            (* x = r; *)
  | raw_assign (x : var) (p : addr)    (* x = p; *)
  | move_assign (x r : var)            (* x = std::move(r); *)
  | call_reset (x : var)               (* x.reset(); *)
  | call_reset_raw (x : var) (p : addr) (* x.reset(p); *)
  | call_swap (x y : var).             (* x.swap(y); *)

Definition exec (s : statement) : M unit :=
  match s with
  | declare x => ctor_default x
  | declare_raw x p => ctor_raw x p true
  | declare_copy x r => ctor_copy x r
  | declare_move x r => ctor_move x r
  | leave_scope x => dtor x
  | copy_assign x r => assign_copy x r
  | raw_assign x p => assign_raw x p
  | move_assign x r => assign_move x r
  | call_reset x => reset x
  | call_reset_raw x p => reset_raw x p
  | call_swap x y => swap x y
  end.

Fixpoint exec_all (l : list statement) : M unit :=
  match l with
  | [] => mret tt
  | s :: l' => exec s;; exec_all l'
  end.

(** A computation keeps the memory consistent while it adds at most
    [grow] handles, as long as the handles stay fewer than the values of
    [unsigned int]. *)
Definition sound (c : M unit) (grow : nat) : Prop :=
  forall m m',
    consistent m ->
    Z.of_nat (size (handles m)) + Z.of_nat grow < 2 ^ unsigned_int_bits ->
    c m = Ok tt m' ->
    consistent m' /\ evolves m m' /\
    (size (handles m') <= size (handles m) + grow)%nat.

(** A program of three handles over one object: the first wraps it, the
    others take it by copy and by move, and all are reassigned and
    destroyed in another order than they were made. *)
Definition three_handles : list statement :=
  [ declare_raw 0%N 1%N; declare_copy 1%N 0%N; declare 2%N;
    move_assign 2%N 0%N; leave_scope 0%N; copy_assign 1%N 1%N;
    call_swap 1%N 2%N; call_reset 2%N; raw_assign 2%N 1%N;
    leave_scope 1%N; leave_scope 2%N ].

(** An address that a raw pointer may be wrapped from. *)
Definition live (m : memory) (p : addr) : Prop :=
  p <> nullptr /\ is_Some (objects m !! p).

(** A statement whose variables are in scope: a declared handle takes
    free storage, a used one is alive, and a raw address is that of a
    live object. *)
Definition scoped (m : memory) (s : statement) : Prop :=
  match s with
  | declare x => handles m !! x = None
  | declare_raw x p => handles m !! x = None /\ live m p
  | declare_copy x r | declare_move x r =>
      handles m !! x = None /\ is_Some (handles m !! r)
  | leave_scope x | call_reset x => is_Some (handles m !! x)
  | copy_assign x r | move_assign x r | call_swap x r =>
      is_Some (handles m !! x) /\ is_Some (handles m !! r)
  | raw_assign x p | call_reset_raw x p =>
      is_Some (handles m !! x) /\ live m p
  end.

(** A program each statement of which is in scope in the memory it is
    reached in. *)
Fixpoint in_scope (m : memory) (l : list statement) : Prop :=
  match l with
  | [] => True
  | s :: l' => scoped m s /\ forall m', exec s m = Ok tt m' -> in_scope m' l'
  end.

(** A program that has room for one more handle at each statement: the
    live handles and the one handle the statement itself may make (a
    declared handle, or the temporary of an assignment or a reset) are
    fewer than the values of [unsigned int]. *)
Fixpoint few_handles (m : memory) (l : list statement) : Prop :=
  match l with
  | [] => True
  | s :: l' =>
      Z.of_nat (size (handles m)) + 1 < 2 ^ unsigned_int_bits /\
      forall m', exec s m = Ok tt m' -> few_handles m' l'
  end.

(** Two objects, at the addresses 1 and 2, each held by one handle. *)
Definition two_objects : memory :=
  {| objects := {[ 1%N := {| ref_count := 1 |}; 2%N := {| ref_count := 1 |} ]};
     handles := {[ 0%N := {| ptr := 1%N |}; 1%N := {| ptr := 2%N |} ]};
     deleted := [] |}.

(** The first handle takes the second object, is copied, and the second
    handle goes: the first object loses its last handle, the second is
    held by two. *)
Definition share_second : list statement :=
  [ copy_assign 0%N 1%N; declare_copy 2%N 0%N; leave_scope 1%N;
    call_swap 0%N 2%N ].

(** ** [intrusive_ptr_release] in steps *)

(** Where a thread stands inside [intrusive_ptr_release(p)].  The call of
    [fetch_sub] and the load inside [use_count()] are one atomic access
    each, and other threads run between them. *)
Inductive release_pc :=
  | before_fetch_sub
  | before_use_count
  | before_delete
  | returned.

Definition release_step (p : addr) (pc : release_pc) : M release_pc :=
  match pc with
  | before_fetch_sub => fetch_sub p 1;; mret before_use_count
  | before_use_count =>
      c ← use_count_at p;
      mret (if c =? 0 then before_delete else returned)
  | before_delete => delete_ of_intrusive_ref_counter p;; mret returned
  | returned => mret returned
  end.

(** Thread [i] takes its next step; each thread is inside the destructor
    of a handle of its own and releases the address that handle held. *)
Definition thread_step (i : nat) (ts : list (addr * release_pc))
    : M (list (addr * release_pc)) :=
  match ts !! i with
  | Some (p, pc) => pc' ← release_step p pc; mret (<[i := (p, pc')]> ts)
  | None => mret ts
  end.

(** The threads step in the order [s] names them. *)
Fixpoint interleave (s : list nat) (ts : list (addr * release_pc))
    : M (list (addr * release_pc)) :=
  match s with
  | [] => mret ts
  | i :: s' => ts' ← thread_step i ts; interleave s' ts'
  end.

(** * Properties *)

(** ** Tools *)

Lemma temporary_is_free (m : memory) :
  handles m !! fresh (dom (handles m)) = None.
Proof. apply not_elem_of_dom, is_fresh. Qed.

Lemma memory_eq (m : memory) O H D :
  objects m = O -> handles m = H -> deleted m = D ->
  m = {| objects := O; handles := H; deleted := D |}.
Proof. destruct m; simpl; congruence. Qed.

Lemma set_handles_same (f : gmap N intrusive_ptr -> gmap N intrusive_ptr) (m : memory) :
  f (handles m) = handles m -> set_handles f m = m.
Proof. destruct m; unfold set_handles; simpl; congruence. Qed.

Lemma set_handles_twice (f g : gmap N intrusive_ptr -> gmap N intrusive_ptr) (m : memory) :
  set_handles f (set_handles g m) = set_handles (fun H => f (g H)) m.
Proof. reflexivity. Qed.

Ltac unfold_m :=
  unfold mbind, M_bind, bind, mret, M_ret, ret.

Ltac unfold_m_in H :=
  unfold mbind, M_bind, bind, mret, M_ret, ret in H.

(** Runs a computation as far as the lookups in the context decide it. *)
Ltac run :=
  repeat (unfold_m;
          cbn [ref_count ptr objects handles deleted set_objects set_handles];
          simplify_map_eq).

(** Names the storage of the temporary in the goal and its freshness. *)
Ltac name_temporary m t Ht :=
  unfold temporary; pose proof (temporary_is_free m) as Ht;
  cbn [handles] in Ht;
  match type of Ht with _ !! ?f = None => set (t := f) in * end.

(** ** The counter is not copied *)

(** C8. Copy construction of a counted object gives the copy a counter of
    zero whatever the count of the source, and copy assignment leaves the
    counter of the target as it was whatever the count of the source: the
    counter is never copied.  The same holds for a class that derives from
    the mixin and uses the implicit copy operations, whose members are
    copied. *)
Theorem counter_is_never_copied :
  ref_count intrusive_ref_counter_default = 0 /\
  (forall v, ref_count (intrusive_ref_counter_copy v) = 0) /\
  (forall this v, ref_count (intrusive_ref_counter_assign this v) = ref_count this) /\
  (forall (members : Type) (v : derived members),
      ref_count (base (derived_copy v)) = 0 /\
      fields (derived_copy v) = fields v) /\
  (forall (members : Type) (this v : derived members),
      ref_count (base (derived_assign this v)) = ref_count (base this) /\
      fields (derived_assign this v) = fields v).
Proof. repeat split. Qed.

(** ** Construction from a null address *)

Lemma ctor_raw_nullptr_add_ref (m : memory) (x : var) :
  handles m !! x = None ->
  ctor_raw x nullptr true m = Fault null_dereference.
Proof.
  intros Hx. unfold ctor_raw, init_ptr, get_ptr, intrusive_ptr_add_ref, fetch_add, at_.
  by run.
Qed.

Lemma ctor_raw_adopt (m : memory) (x : var) (p : addr) :
  handles m !! x = None ->
  ctor_raw x p false m = Ok tt (set_handles <[x := {| ptr := p |}]> m).
Proof. intros Hx. unfold ctor_raw, init_ptr. by run. Qed.

Lemma ctor_default_null (m : memory) (x : var) :
  handles m !! x = None ->
  ctor_default x m = Ok tt (set_handles <[x := null_handle]> m).
Proof. intros Hx. unfold ctor_default, init_ptr. by run. Qed.

Lemma null_handle_observed (m : memory) (x : var) :
  handles m !! x = Some null_handle ->
  get x m = Ok nullptr m /\ operator_bool x m = Ok false m.
Proof. intros Hx. unfold operator_bool, get, get_ptr. by run. Qed.

(** C3. The constructor from a raw address with the default
    [add_ref = true] calls [intrusive_ptr_add_ref] on the address without
    a test for null, so from a null address it dereferences null where the
    claim has no increment and a null handle.  The default constructor and
    the adopting form, [add_ref = false], give the null handle of the
    claim: no object changes, [get()] is null and the conversion to [bool]
    is false. *)
Theorem ctor_raw_null_dereferences_null :
  ctor_raw 0%N nullptr true (one_object 1 []) = Fault null_dereference /\
  assign_raw 0%N nullptr (one_object 1 [(0%N, null_handle)]) = Fault null_dereference /\
  (forall m x, handles m !! x = None ->
     exists m', ctor_default x m = Ok tt m' /\ objects m' = objects m /\
       get x m' = Ok nullptr m' /\ operator_bool x m' = Ok false m') /\
  (forall m x, handles m !! x = None ->
     exists m', ctor_raw x nullptr false m = Ok tt m' /\ objects m' = objects m /\
       get x m' = Ok nullptr m' /\ operator_bool x m' = Ok false m').
Proof.
  split; [by apply ctor_raw_nullptr_add_ref|].
  split.
  { unfold assign_raw, temporary. unfold_m.
    rewrite ctor_raw_nullptr_add_ref; [done|apply temporary_is_free]. }
  split; intros m x Hx; eexists.
  - split; [by apply ctor_default_null|]. split; [done|].
    apply null_handle_observed. simpl. by simplify_map_eq.
  - split; [by apply ctor_raw_adopt|]. split; [done|].
    apply null_handle_observed. simpl. by simplify_map_eq.
Qed.

(** ** The counting protocol on a live object *)

Lemma to_size_t_id (c : Z) : is_size_t c -> to_size_t c = c.
Proof. unfold is_size_t, to_size_t. intros. by apply Z.mod_small. Qed.

Lemma to_size_t_add_sub (c : Z) :
  is_size_t c -> to_size_t (to_size_t (c + 1) - 1) = c.
Proof.
  intros Hc. unfold to_size_t. rewrite Zminus_mod_idemp_l.
  replace (c + 1 - 1) with c by lia. by apply to_size_t_id.
Qed.

Lemma add_ref_live (m : memory) (p : addr) (o : intrusive_ref_counter) :
  p <> nullptr -> objects m !! p = Some o ->
  intrusive_ptr_add_ref p m =
    Ok tt (set_objects <[p := {| ref_count := to_size_t (ref_count o + 1) |}]> m).
Proof.
  intros Hp Ho. unfold intrusive_ptr_add_ref, fetch_add, at_, put. by run.
Qed.

Lemma release_live (m : memory) (p : addr) (o : intrusive_ref_counter) :
  p <> nullptr -> objects m !! p = Some o ->
  intrusive_ptr_release p m =
    let o' := {| ref_count := to_size_t (ref_count o - 1) |} in
    if use_count o' =? 0
    then Ok tt {| objects := delete p (objects m); handles := handles m;
                  deleted := deleted m ++ [(p, of_intrusive_ref_counter)] |}
    else Ok tt (set_objects <[p := o']> m).
Proof.
  intros Hp Ho.
  unfold intrusive_ptr_release, fetch_sub, use_count_at, at_, put, delete_.
  run. destruct (use_count _ =? 0); run; [|done].
  by rewrite delete_insert_eq.
Qed.

Lemma release_null (m : memory) :
  intrusive_ptr_release nullptr m = Fault null_dereference.
Proof. reflexivity. Qed.

Lemma release_dangling (m : memory) (p : addr) :
  p <> nullptr -> objects m !! p = None ->
  intrusive_ptr_release p m = Fault (dangling p).
Proof.
  intros Hp Ho. unfold intrusive_ptr_release, fetch_sub, at_. by run.
Qed.

(** ** Self assignment *)

(** C10. Move assignment of a handle to itself leaves the memory as it
    was: the handle holds the address it held, no counter changes and
    nothing is deleted.  This holds for a null and for a non-null handle,
    whatever the state of the pointee. *)
Theorem self_move_assignment_is_identity (m : memory) (x : var) (h : intrusive_ptr) :
  handles m !! x = Some h ->
  assign_move x x m = Ok tt m.
Proof.
  intros Hx. unfold assign_move. name_temporary m t Ht.
  assert (t <> x) by congruence.
  unfold ctor_move, swap, dtor, get_ptr, init_ptr, set_ptr, end_lifetime.
  run. f_equal. symmetry. apply memory_eq; cbn; [done| |done].
  apply map_eq. intros i. destruct h as [p].
  destruct (decide (i = t)), (decide (i = x)); by simplify_map_eq.
Qed.

Lemma self_move_assignment_is_identity_witness :
  handles (one_object 1 [(0%N, {| ptr := 1%N |})]) !! 0%N = Some {| ptr := 1%N |} /\
  assign_move 0%N 0%N (one_object 1 [(0%N, {| ptr := 1%N |})]) =
    Ok tt (one_object 1 [(0%N, {| ptr := 1%N |})]).
Proof.
  split; [reflexivity|].
  apply (self_move_assignment_is_identity _ 0%N {| ptr := 1%N |}). reflexivity.
Defined.

Lemma use_count_restored (o : intrusive_ref_counter) :
  is_size_t (ref_count o) ->
  use_count {| ref_count := to_size_t (to_size_t (ref_count o + 1) - 1) |} = use_count o.
Proof. intros Ho. by rewrite to_size_t_add_sub. Qed.

(** Where the count is one that [use_count()] reports as nonzero, copy
    assignment of a handle to itself leaves the memory as it was, so the
    counter and the address the handle stores are unchanged.  The handle
    is null, or its pointee is alive with such a counter.  At a count
    that reads as zero the temporary's release deletes the pointee. *)
Theorem self_copy_assignment_is_identity (m : memory) (x : var) (h : intrusive_ptr) :
  handles m !! x = Some h ->
  (ptr h = nullptr \/
   exists o, objects m !! ptr h = Some o /\ is_size_t (ref_count o) /\ use_count o <> 0) ->
  assign_copy x x m = Ok tt m.
Proof.
  intros Hx Hp. unfold assign_copy. name_temporary m t Ht.
  assert (t <> x) by congruence. destruct h as [p]. cbn [ptr] in Hp.
  unfold ctor_copy, swap, dtor, get_ptr, init_ptr, set_ptr, end_lifetime. run.
  destruct (decide (p = nullptr)) as [->|Hnn].
  - run. f_equal. symmetry. apply memory_eq; cbn; [done| |done].
    apply map_eq. intros i.
    destruct (decide (i = t)), (decide (i = x)); by simplify_map_eq.
  - destruct Hp as [?|(o & Ho & Hc & Hu)]; [done|].
    apply N.eqb_neq in Hnn as Hb. rewrite !Hb. cbn [negb].
    erewrite add_ref_live by done. run. rewrite Hb. cbn [negb].
    erewrite release_live by (try done; cbn; by simplify_map_eq).
    cbn zeta. cbn [ref_count]. rewrite use_count_restored by done.
    destruct (Z.eqb_spec (use_count o) 0) as [?|_]; [done|]. run.
    f_equal. symmetry. apply memory_eq; cbn; [|
      apply map_eq; intros i;
      destruct (decide (i = t)), (decide (i = x)); by simplify_map_eq |done].
    rewrite insert_insert_eq, to_size_t_add_sub by done.
    destruct o. by rewrite insert_id.
Qed.

Lemma self_copy_assignment_is_identity_witness :
  handles (one_object 1 [(0%N, {| ptr := 1%N |})]) !! 0%N = Some {| ptr := 1%N |} /\
  assign_copy 0%N 0%N (one_object 1 [(0%N, {| ptr := 1%N |})]) =
    Ok tt (one_object 1 [(0%N, {| ptr := 1%N |})]).
Proof.
  split; [reflexivity|].
  apply (self_copy_assignment_is_identity _ 0%N {| ptr := 1%N |}); [reflexivity|].
  right. exists {| ref_count := 1 |}.
  split; [reflexivity|]. split; [by compute|by compute].
Defined.

(** ** Copy and drop *)

Lemma handles_restored (H : gmap N intrusive_ptr) (y : var) (h : intrusive_ptr) :
  H !! y = None -> delete y (<[y := h]> H) = H.
Proof. intros Hy. by rewrite delete_insert_eq, delete_id. Qed.

(** Where the count is one that [use_count()] reports as nonzero and is
    below the largest [size_t], a copy of a handle holds the address of its
    source and, when that address is not null, has added exactly one to
    the counter of the pointee; the destruction of the copy takes that one
    off again, so after copy and drop the memory is what it was before.
    At a count that reads as zero the drop deletes the pointee. *)
Theorem copy_then_drop_is_neutral (m : memory) (x y : var) (h : intrusive_ptr) :
  handles m !! x = Some h ->
  handles m !! y = None ->
  (ptr h = nullptr \/
   exists o, objects m !! ptr h = Some o /\
     0 <= ref_count o /\ ref_count o + 1 < 2 ^ size_t_bits /\ use_count o <> 0) ->
  exists m1,
    ctor_copy y x m = Ok tt m1 /\
    handles m1 = <[y := h]> (handles m) /\
    (ptr h = nullptr -> objects m1 = objects m) /\
    (forall o, ptr h <> nullptr -> objects m !! ptr h = Some o ->
       objects m1 = <[ptr h := {| ref_count := ref_count o + 1 |}]> (objects m)) /\
    dtor y m1 = Ok tt m.
Proof.
  intros Hx Hy Hp. assert (y <> x) by congruence. destruct h as [p]. cbn [ptr] in *.
  unfold ctor_copy, dtor, get_ptr, init_ptr, end_lifetime. run.
  destruct (decide (p = nullptr)) as [->|Hnn].
  - run. eexists. split; [done|]. run. repeat split; try done.
    f_equal. symmetry. apply memory_eq; cbn; [done|by rewrite handles_restored|done].
  - destruct Hp as [?|(o & Ho & Hc0 & Hc1 & Hu)]; [done|].
    assert (is_size_t (ref_count o)) as Hc by (unfold is_size_t; lia).
    apply N.eqb_neq in Hnn as Hb. rewrite !Hb. cbn [negb].
    erewrite add_ref_live by done.
    rewrite (to_size_t_id (ref_count o + 1)) by (unfold is_size_t; lia).
    eexists. split; [done|]. run. split; [done|]. split; [done|].
    split; [intros o' _ [= <-]; done|].
    rewrite Hb. cbn [negb].
    erewrite release_live by (try done; cbn; by simplify_map_eq).
    cbn zeta. cbn [ref_count].
    replace (ref_count o + 1 - 1) with (ref_count o) by lia.
    rewrite to_size_t_id by done. destruct o as [c]. cbn [ref_count] in *.
    destruct (Z.eqb_spec (use_count {| ref_count := c |}) 0) as [?|_]; [done|]. run.
    f_equal. symmetry. apply memory_eq; cbn; [|by rewrite handles_restored|done].
    by rewrite insert_insert_eq, insert_id.
Qed.

Lemma copy_then_drop_is_neutral_witness :
  exists m1,
    ctor_copy 1%N 0%N (one_object 1 [(0%N, {| ptr := 1%N |})]) = Ok tt m1 /\
    objects m1 !! 1%N = Some {| ref_count := 2 |} /\
    dtor 1%N m1 = Ok tt (one_object 1 [(0%N, {| ptr := 1%N |})]).
Proof.
  destruct (copy_then_drop_is_neutral
              (one_object 1 [(0%N, {| ptr := 1%N |})]) 0%N 1%N {| ptr := 1%N |})
    as (m1 & Hcopy & _ & _ & Hobj & Hdrop).
  - reflexivity.
  - reflexivity.
  - right. exists {| ref_count := 1 |}.
    split; [reflexivity|]. repeat split; by compute.
  - exists m1. split; [exact Hcopy|]. split; [|exact Hdrop].
    rewrite (Hobj {| ref_count := 1 |}); [reflexivity|by compute|reflexivity].
Defined.

(** ** Detach and adopt *)

Lemma detach_live (m : memory) (x : var) (h : intrusive_ptr) :
  handles m !! x = Some h ->
  detach x m = Ok (ptr h) (set_handles <[x := null_handle]> m).
Proof. intros Hx. unfold detach, get_ptr, set_ptr. by run. Qed.

(** C6. [detach()] returns the address the handle held and leaves the
    handle null; it touches no counted object, so nothing is decremented.
    A handle constructed from that address with [add_ref = false] holds
    the address the first handle held, and the counted objects (every
    counter among them) and the deletions are what they were before the
    detach. *)
Theorem detach_then_adopt_keeps_ownership (m : memory) (x y : var) (h : intrusive_ptr) :
  handles m !! x = Some h ->
  handles m !! y = None ->
  exists m1 m2,
    detach x m = Ok (ptr h) m1 /\
    objects m1 = objects m /\ deleted m1 = deleted m /\
    handles m1 = <[x := null_handle]> (handles m) /\
    ctor_raw y (ptr h) false m1 = Ok tt m2 /\
    objects m2 = objects m /\ deleted m2 = deleted m /\
    handles m2 = <[y := h]> (<[x := null_handle]> (handles m)) /\
    get y m2 = Ok (ptr h) m2 /\
    get x m2 = Ok nullptr m2.
Proof.
  intros Hx Hy. assert (y <> x) by congruence.
  do 2 eexists. split; [by apply detach_live|].
  do 3 (split; [done|]).
  split; [apply ctor_raw_adopt; cbn; by simplify_map_eq|].
  destruct h as [p]. do 3 (split; [done|]).
  unfold get, get_ptr. by run.
Qed.

Lemma detach_then_adopt_keeps_ownership_witness :
  exists m1 m2,
    detach 0%N (one_object 1 [(0%N, {| ptr := 1%N |})]) = Ok 1%N m1 /\
    ctor_raw 1%N 1%N false m1 = Ok tt m2 /\
    objects m2 !! 1%N = Some {| ref_count := 1 |} /\
    get 1%N m2 = Ok 1%N m2.
Proof.
  destruct (detach_then_adopt_keeps_ownership
              (one_object 1 [(0%N, {| ptr := 1%N |})]) 0%N 1%N {| ptr := 1%N |})
    as (m1 & m2 & Hd & _ & _ & _ & Hc & Ho & _ & _ & Hg & _).
  - reflexivity.
  - reflexivity.
  - exists m1, m2. repeat split; [exact Hd|exact Hc| |exact Hg].
    rewrite Ho. reflexivity.
Defined.

(** ** Move *)

Lemma release_frame (p : addr) (f : gmap N intrusive_ptr -> gmap N intrusive_ptr)
    (m : memory) :
  intrusive_ptr_release p (set_handles f m) =
    match intrusive_ptr_release p m with
    | Ok a m' => Ok a (set_handles f m')
    | Fault e => Fault e
    end.
Proof.
  destruct (decide (p = nullptr)) as [->|Hp]; [done|].
  destruct (objects m !! p) as [o|] eqn:Ho.
  - rewrite !(release_live _ p o) by done. cbn zeta.
    by destruct (use_count _ =? 0).
  - by rewrite !release_dangling.
Qed.

Lemma release_changes_one_object (p q : addr) (m m' : memory) :
  intrusive_ptr_release q m = Ok tt m' -> p <> q ->
  objects m' !! p = objects m !! p.
Proof.
  intros Hr Hpq. destruct (decide (q = nullptr)) as [->|Hq]; [done|].
  destruct (objects m !! q) as [o|] eqn:Ho.
  - rewrite (release_live _ q o) in Hr by done. cbn zeta in Hr.
    destruct (use_count _ =? 0); injection Hr as <-; cbn; by simplify_map_eq.
  - by rewrite release_dangling in Hr.
Qed.

Lemma release_keeps_handles (q : addr) (m m' : memory) :
  intrusive_ptr_release q m = Ok tt m' -> handles m' = handles m.
Proof.
  intros Hr. destruct (decide (q = nullptr)) as [->|Hq]; [done|].
  destruct (objects m !! q) as [o|] eqn:Ho.
  - rewrite (release_live _ q o) in Hr by done. cbn zeta in Hr.
    by destruct (use_count _ =? 0); injection Hr as <-.
  - by rewrite release_dangling in Hr.
Qed.

Lemma ctor_move_live (m : memory) (x r : var) (h : intrusive_ptr) :
  handles m !! r = Some h -> handles m !! x = None ->
  ctor_move x r m =
    Ok tt (set_handles (fun H => <[r := null_handle]> (<[x := h]> H)) m).
Proof.
  intros Hr Hx. assert (x <> r) by congruence. destruct h as [p].
  unfold ctor_move, get_ptr, init_ptr, set_ptr. by run.
Qed.





(** ** The count after copies *)

Lemma ctor_copy_live (m : memory) (x r : var) (h : intrusive_ptr) (o : intrusive_ref_counter) :
  handles m !! r = Some h -> handles m !! x = None ->
  ptr h <> nullptr -> objects m !! ptr h = Some o ->
  ctor_copy x r m =
    Ok tt (set_objects <[ptr h := {| ref_count := to_size_t (ref_count o + 1) |}]>
             (set_handles <[x := h]> m)).
Proof.
  intros Hr Hx Hp Ho. assert (x <> r) by congruence. destruct h as [p]. cbn [ptr] in *.
  unfold ctor_copy, get_ptr, init_ptr. run.
  apply N.eqb_neq in Hp as Hb. rewrite Hb. cbn [negb].
  by erewrite add_ref_live.
Qed.

(** After [k] copies of a handle whose pointee has the count [c], the
    count is [c + k], the copies hold the address of the source, and
    nothing else has changed. *)
Lemma copies_count (k : nat) : forall (m : memory) (src next : var) (h : intrusive_ptr) (c : Z),
  handles m !! src = Some h -> ptr h <> nullptr ->
  objects m !! ptr h = Some {| ref_count := c |} ->
  (forall j, (next <= j)%N -> handles m !! j = None) ->
  0 <= c -> c + Z.of_nat k < 2 ^ size_t_bits ->
  exists m',
    copies k src next m = Ok tt m' /\
    objects m' = <[ptr h := {| ref_count := c + Z.of_nat k |}]> (objects m) /\
    deleted m' = deleted m /\
    (forall j, (next <= j < next + N.of_nat k)%N -> handles m' !! j = Some h) /\
    (forall j, ~ (next <= j < next + N.of_nat k)%N -> handles m' !! j = handles m !! j).
Proof.
  induction k as [|k IH]; intros m src next h c Hsrc Hp Ho Hfree Hc0 Hc.
  - exists m. split; [done|]. split.
    + rewrite Z.add_0_r. by rewrite insert_id.
    + split; [done|]. split; [lia|done].
  - cbn [copies]. unfold_m.
    assert (handles m !! next = None) as Hnext by (apply Hfree; lia).
    rewrite (ctor_copy_live m next src h {| ref_count := c |}) by done.
    cbn [ref_count]. rewrite to_size_t_id by (unfold is_size_t; lia).
    set (m1 := set_objects _ _).
    destruct (IH m1 src (N.succ next) h (c + 1)) as (m' & Hrun & Hobj & Hdel & Hnew & Hold).
    + subst m1. cbn. rewrite lookup_insert_ne by congruence. done.
    + done.
    + subst m1. cbn. by simplify_map_eq.
    + intros j Hj. subst m1. cbn. rewrite lookup_insert_ne by lia. apply Hfree. lia.
    + lia.
    + lia.
    + exists m'. split; [done|]. split.
      { rewrite Hobj. subst m1. cbn. rewrite insert_insert_eq. do 2 f_equal. lia. }
      split; [done|]. split.
      * intros j Hj. destruct (decide (j = next)) as [->|Hjn].
        -- rewrite Hold by lia. subst m1. cbn. by simplify_map_eq.
        -- apply Hnew. lia.
      * intros j Hj. rewrite Hold by lia. subst m1. cbn.
        rewrite lookup_insert_ne by lia. done.
Qed.

(** C9, the claim as stated fails: the owner holds the only handle of the
    object at address 1, so the count is 1; after one copy [use_count()]
    returns 2, where the claim has 1. *)
Lemma use_count_after_one_copy_is_two :
  use_count_at 1%N (one_object 1 [(0%N, {| ptr := 1%N |})])
    = Ok 1 (one_object 1 [(0%N, {| ptr := 1%N |})]) /\
  (copies 1 0%N 1%N;; use_count_at 1%N) (one_object 1 [(0%N, {| ptr := 1%N |})])
    = Ok 2 (one_object 2 [(0%N, {| ptr := 1%N |}); (1%N, {| ptr := 1%N |})]).
Proof. split; vm_compute; reflexivity. Qed.

(** C9, amended. The owner's handle is the only unit of its pointee, so
    the count is 1; after [k] copies of that handle, made one after the
    other with no drop, [use_count()] returns [k + 1]: the owner's handle
    and the [k] copies.  The count stays below the width of
    [unsigned int]. *)
Theorem use_count_after_copies (m : memory) (src next : var) (h : intrusive_ptr) (k : nat) :
  handles m !! src = Some h ->
  ptr h <> nullptr ->
  objects m !! ptr h = Some {| ref_count := 1 |} ->
  (forall j, (next <= j)%N -> handles m !! j = None) ->
  Z.of_nat k + 1 < 2 ^ unsigned_int_bits ->
  exists m',
    copies k src next m = Ok tt m' /\
    use_count_at (ptr h) m' = Ok (Z.of_nat k + 1) m'.
Proof.
  intros Hsrc Hp Ho Hfree Hk.
  assert (2 ^ unsigned_int_bits < 2 ^ size_t_bits) as Hbits by (by compute).
  destruct (copies_count k m src next h 1) as (m' & Hrun & Hobj & _); try done; [lia|].
  exists m'. split; [done|].
  unfold use_count_at, at_. run. rewrite Hobj. run.
  unfold use_count, to_unsigned_int. cbn [ref_count].
  rewrite Z.mod_small by lia. f_equal. lia.
Qed.

Lemma use_count_after_copies_witness :
  exists m',
    copies 3 0%N 1%N (one_object 1 [(0%N, {| ptr := 1%N |})]) = Ok tt m' /\
    use_count_at 1%N m' = Ok 4 m'.
Proof.
  apply (use_count_after_copies
           (one_object 1 [(0%N, {| ptr := 1%N |})]) 0%N 1%N {| ptr := 1%N |} 3).
  - reflexivity.
  - by compute.
  - reflexivity.
  - intros j Hj. destruct j as [|j]; [by compute in Hj|].
    change (<[0%N := {| ptr := 1%N |}]> (∅ : gmap N intrusive_ptr) !! N.pos j = None).
    rewrite lookup_insert_ne by discriminate. apply lookup_empty.
  - by compute.
Defined.

(** ** The destroy step *)

Lemma release_deletions (p : addr) (m m' : memory) :
  intrusive_ptr_release p m = Ok tt m' ->
  deleted m' = deleted m \/
  deleted m' = deleted m ++ [(p, of_intrusive_ref_counter)] /\ objects m' !! p = None.
Proof.
  intros Hr. destruct (decide (p = nullptr)) as [->|Hp]; [done|].
  destruct (objects m !! p) as [o|] eqn:Ho.
  - rewrite (release_live _ p o) in Hr by done. cbn zeta in Hr.
    destruct (use_count _ =? 0); injection Hr as <-; cbn; [right|by left].
    split; [done|]. apply lookup_delete_eq.
  - by rewrite release_dangling in Hr.
Qed.

(** C4. The delete-expression of [intrusive_ptr_release] has an operand of
    the mixin's type, whose destructor is not virtual: every deletion the
    function makes runs the destructor of [intrusive_ref_counter<Derived>]
    and none runs the destructor of the concrete pointee.  The drop of the
    only handle of the object at address 1 is such a deletion. *)
Theorem release_deletes_through_the_mixin :
  dtor 0%N (one_object 1 [(0%N, {| ptr := 1%N |})])
    = Ok tt {| objects := ∅; handles := ∅;
               deleted := [(1%N, of_intrusive_ref_counter)] |} /\
  (forall p m m' e, intrusive_ptr_release p m = Ok tt m' ->
     e ∈ deleted m' -> e ∈ deleted m \/ e = (p, of_intrusive_ref_counter)) /\
  of_intrusive_ref_counter <> of_Derived.
Proof.
  split; [vm_compute; reflexivity|]. split; [|done].
  intros p m m' e Hr He.
  destruct (release_deletions p m m' Hr) as [Hd|[Hd _]]; rewrite Hd in He; [by left|].
  apply elem_of_app in He as [?|He]; [by left|right].
  by apply list_elem_of_singleton in He.
Qed.

(** ** Steps of the release *)

(** A thread that takes the three steps with no other thread in between
    runs [intrusive_ptr_release]. *)
Lemma release_in_steps (p : addr) (m : memory) :
  (interleave [0; 0; 0]%nat [(p, before_fetch_sub)];; mret tt) m
    = intrusive_ptr_release p m.
Proof.
  unfold intrusive_ptr_release. cbn -[fetch_sub use_count_at delete_ Z.eqb].
  unfold_m. destruct (fetch_sub p 1 m) as [c m1|e]; [|done].
  cbn -[fetch_sub use_count_at delete_ Z.eqb]. unfold_m.
  destruct (use_count_at p m1) as [c' m2|e]; [|done].
  destruct (c' =? 0); cbn -[fetch_sub use_count_at delete_ Z.eqb]; unfold_m; [|done].
  by destruct (delete_ of_intrusive_ref_counter p m2) as [[] m3|e].
Qed.

(** ** Destruction while handles remain *)

Lemma wrap_unreferenced_object :
  ctor_raw 0%N 1%N true (one_object 0 []) = Ok tt (one_object 1 [(0%N, {| ptr := 1%N |})]).
Proof. vm_compute. reflexivity. Qed.

Lemma one_handle_rest_free (c : Z) (j : var) :
  (1 <= j)%N -> handles (one_object c [(0%N, {| ptr := 1%N |})]) !! j = None.
Proof.
  intros Hj. change (<[0%N := {| ptr := 1%N |}]> (∅ : gmap N intrusive_ptr) !! j = None).
  rewrite lookup_insert_ne by lia. apply lookup_empty.
Qed.

(** The first handle of an object and [k] copies of it: [k + 1] handles
    hold the object and its counter is [k + 1]. *)
Lemma wrap_and_copy (k : nat) :
  Z.of_nat k + 1 < 2 ^ size_t_bits ->
  exists m1,
    (ctor_raw 0%N 1%N true;; copies k 0%N 1%N) (one_object 0 []) = Ok tt m1 /\
    objects m1 = {[ 1%N := {| ref_count := Z.of_nat k + 1 |} ]} /\
    deleted m1 = [] /\
    (forall j, (j <= N.of_nat k)%N -> handles m1 !! j = Some {| ptr := 1%N |}).
Proof.
  intros Hk. unfold_m. rewrite wrap_unreferenced_object.
  destruct (copies_count k (one_object 1 [(0%N, {| ptr := 1%N |})]) 0%N 1%N {| ptr := 1%N |} 1)
    as (m1 & Hrun & Hobj & Hdel & Hnew & Hold);
    [done|done|done|apply one_handle_rest_free|lia|lia|].
  exists m1. split; [done|]. split.
  { rewrite Hobj. cbn [ptr one_object objects]. rewrite insert_singleton_eq.
    do 2 f_equal. lia. }
  split; [done|]. intros j Hj. destruct (decide (j = 0%N)) as [->|Hj0].
  - by rewrite Hold by lia.
  - apply Hnew. lia.
Qed.

Lemma dtor_live (m : memory) (x : var) (h : intrusive_ptr) (o : intrusive_ref_counter) :
  handles m !! x = Some h -> ptr h <> nullptr -> objects m !! ptr h = Some o ->
  dtor x m =
    let o' := {| ref_count := to_size_t (ref_count o - 1) |} in
    if use_count o' =? 0
    then Ok tt {| objects := delete (ptr h) (objects m); handles := delete x (handles m);
                  deleted := deleted m ++ [(ptr h, of_intrusive_ref_counter)] |}
    else Ok tt {| objects := <[ptr h := o']> (objects m); handles := delete x (handles m);
                  deleted := deleted m |}.
Proof.
  intros Hx Hp Ho. destruct h as [p]. cbn [ptr] in *.
  unfold dtor, get_ptr, end_lifetime. run.
  apply N.eqb_neq in Hp as Hb. rewrite Hb. cbn [negb].
  rewrite (release_live m p o) by done. cbn zeta.
  destruct (use_count _ =? 0); by run.
Qed.

(** C1. The claim fails on the code at two inputs.

    First, [intrusive_ptr_release] tests [use_count()], which is the
    counter cast to [unsigned int].  An unreferenced object is wrapped by
    a handle and that handle is copied [2 ^ 32] times; the counter is
    [2 ^ 32 + 1].  The drop of the first handle leaves the counter at
    [2 ^ 32], which [use_count()] reports as zero: the object is deleted
    while [2 ^ 32] handles hold it.

    Second, the decrement and the test are two accesses.  Two threads drop
    the two handles of an object; both decrement, then both read zero, and
    both delete: after five steps the object is deleted by the first
    thread, and the next step of the second thread deletes it again.  With
    the first thread's delete before the second thread's read, that read
    is of a deleted object.  One thread after the other deletes once. *)
Theorem release_destroys_held_object_and_twice :
  (exists m1 m2,
     (ctor_raw 0%N 1%N true;; copies (Z.to_nat (2 ^ 32)) 0%N 1%N) (one_object 0 [])
       = Ok tt m1 /\
     objects m1 !! 1%N = Some {| ref_count := 2 ^ 32 + 1 |} /\
     (forall j, (j <= 2 ^ 32)%N -> handles m1 !! j = Some {| ptr := 1%N |}) /\
     dtor 0%N m1 = Ok tt m2 /\
     objects m2 !! 1%N = None /\
     deleted m2 = [(1%N, of_intrusive_ref_counter)] /\
     (forall j, (1 <= j <= 2 ^ 32)%N -> handles m2 !! j = Some {| ptr := 1%N |})) /\
  interleave [0; 1; 0; 1; 0]%nat [(1%N, before_fetch_sub); (1%N, before_fetch_sub)]
      (one_object 2 [])
    = Ok [(1%N, returned); (1%N, before_delete)]
         {| objects := ∅; handles := ∅; deleted := [(1%N, of_intrusive_ref_counter)] |} /\
  interleave [0; 1; 0; 1; 0; 1]%nat [(1%N, before_fetch_sub); (1%N, before_fetch_sub)]
      (one_object 2 [])
    = Fault (invalid_delete 1%N) /\
  interleave [0; 1; 0; 0; 1]%nat [(1%N, before_fetch_sub); (1%N, before_fetch_sub)]
      (one_object 2 [])
    = Fault (dangling 1%N) /\
  interleave [0; 0; 0; 1; 1; 1]%nat [(1%N, before_fetch_sub); (1%N, before_fetch_sub)]
      (one_object 2 [])
    = Ok [(1%N, returned); (1%N, returned)]
         {| objects := ∅; handles := ∅; deleted := [(1%N, of_intrusive_ref_counter)] |}.
Proof.
  split; [|repeat split; vm_compute; reflexivity].
  assert (Z.of_nat (Z.to_nat (2 ^ 32)) = 2 ^ 32) as Hk by (apply Z2Nat.id; by compute).
  assert (N.of_nat (Z.to_nat (2 ^ 32)) = (2 ^ 32)%N) as HkN by lia.
  generalize dependent (Z.to_nat (2 ^ 32)). intros k Hk HkN.
  destruct (wrap_and_copy k) as (m1 & Hrun & Hobj & Hdel & Hh);
    [rewrite Hk; by compute|].
  rewrite Hk in Hobj. rewrite HkN in Hh.
  pose proof (Hh 0%N) as H0.
  exists m1. eexists. split; [exact Hrun|]. split; [by rewrite Hobj|].
  split; [exact Hh|].
  rewrite (dtor_live m1 0%N {| ptr := 1%N |} {| ref_count := 2 ^ 32 + 1 |});
    [|apply H0; lia|done|by rewrite Hobj].
  cbn zeta. cbn [ref_count ptr].
  replace (use_count _ =? 0) with true by (by vm_compute).
  split; [done|]. cbn [objects handles deleted].
  split; [apply lookup_delete_eq|]. split; [by rewrite Hdel|].
  intros j Hj. rewrite lookup_delete_ne by lia. apply Hh. lia.
Qed.

(** ** Programs that take every unit through a handle *)

Section holders.

Implicit Types (H : gmap N intrusive_ptr) (h : intrusive_ptr).

Lemma holders_insert_free H x h p :
  H !! x = None ->
  holders (<[x := h]> H) p = (holders H p + unit_of h p)%nat.
Proof.
  intros Hx. unfold holders, unit_of. rewrite map_filter_insert. cbn.
  assert (filter (fun kv => ptr kv.2 = p) H !! x = None) as Hf
    by (apply map_lookup_filter_None; by left).
  destruct (decide (ptr h = p)).
  - rewrite map_size_insert_None by done. lia.
  - rewrite delete_id by done. lia.
Qed.

Lemma holders_delete H x h p :
  H !! x = Some h ->
  holders H p = (holders (delete x H) p + unit_of h p)%nat.
Proof.
  intros Hx. rewrite <- (insert_id H x h) at 1 by done.
  rewrite <- insert_delete_eq. apply holders_insert_free, lookup_delete_eq.
Qed.

Lemma holders_insert H x h p :
  holders (<[x := h]> H) p = (holders (delete x H) p + unit_of h p)%nat.
Proof. rewrite <- insert_delete_eq. apply holders_insert_free, lookup_delete_eq. Qed.

Lemma holders_le_size H p : (holders H p <= size H)%nat.
Proof. apply map_subseteq_size, map_filter_subseteq. Qed.

Lemma holders_held H x h : H !! x = Some h -> (0 < holders H (ptr h))%nat.
Proof.
  intros Hx. rewrite (holders_delete H x h) by done.
  unfold unit_of. rewrite decide_True by done. lia.
Qed.

Lemma holders_none H p :
  holders H p = 0%nat -> forall x h, H !! x = Some h -> ptr h <> p.
Proof.
  intros H0 x h Hx <-. pose proof (holders_held H x h Hx). lia.
Qed.

Lemma unit_of_same h : unit_of h (ptr h) = 1%nat.
Proof. unfold unit_of. by rewrite decide_True. Qed.

Lemma unit_of_other h p : ptr h <> p -> unit_of h p = 0%nat.
Proof. intros. unfold unit_of. by rewrite decide_False. Qed.

(** A handle that comes to life at [x]. *)
Lemma holders_acquire H x h p :
  H !! x = None ->
  holders (<[x := h]> H) p
    = if decide (ptr h = p) then S (holders H p) else holders H p.
Proof.
  intros Hx. rewrite holders_insert_free by done. unfold unit_of.
  case_decide; lia.
Qed.

(** A handle whose life ends at [x]. *)
Lemma holders_retire H x h p :
  H !! x = Some h ->
  holders H p
    = if decide (ptr h = p) then S (holders (delete x H) p)
      else holders (delete x H) p.
Proof.
  intros Hx. rewrite (holders_delete H x h) by done. unfold unit_of.
  case_decide; lia.
Qed.

(** The address moves from [r] to the new handle at [x]. *)
Lemma holders_move H x r h p :
  H !! r = Some h -> H !! x = None -> p <> nullptr ->
  holders (<[r := null_handle]> (<[x := h]> H)) p = holders H p.
Proof.
  intros Hr Hx Hp. assert (x <> r) by congruence.
  rewrite holders_insert, delete_insert_ne by done.
  rewrite holders_insert_free by (by rewrite lookup_delete_ne).
  rewrite (holders_delete H r h p) by done.
  rewrite (unit_of_other null_handle) by done. lia.
Qed.

(** Two handles exchange their addresses. *)
Lemma holders_swap H x y hx hy p :
  H !! x = Some hx -> H !! y = Some hy ->
  holders (<[y := hx]> (<[x := hy]> H)) p = holders H p.
Proof.
  intros Hx Hy. destruct (decide (x = y)) as [->|Hne].
  - rewrite insert_insert_eq, insert_id; [done|congruence].
  - rewrite holders_insert, delete_insert_ne by done.
    rewrite holders_insert.
    rewrite (holders_delete H y hy p) by done.
    rewrite (holders_delete (delete y H) x hx p) by (by rewrite lookup_delete_ne).
    rewrite (delete_delete H x y). lia.
Qed.
End holders.

Lemma holders_some (H : gmap N intrusive_ptr) (p : addr) :
  (0 < holders H p)%nat -> exists x h, H !! x = Some h /\ ptr h = p.
Proof.
  intros Hp. unfold holders in Hp.
  destruct (map_size_ne_0_lookup_1 (filter (fun kv => ptr kv.2 = p) H)) as [x [h Hx]];
    [lia|].
  apply map_lookup_filter_Some in Hx as [Hx Hh]. by exists x, h.
Qed.

Lemma evolves_refl (m : memory) : evolves m m.
Proof. split; try done. intros p [o Ho] Hn. congruence. Qed.

Lemma evolves_trans (m1 m2 m3 : memory) :
  evolves m1 m2 -> evolves m2 m3 -> evolves m1 m3.
Proof.
  intros [N1 U1 D1 G1] [N2 U2 D2 G2]. split.
  - auto.
  - auto.
  - by etrans.
  - intros p Hp Hg. destruct (objects m2 !! p) as [o|] eqn:Ho.
    + apply G2; [by eexists|done].
    + destruct D2 as [k ->]. rewrite fmap_app. apply elem_of_app. left. by apply G1.
Qed.

(** The handles change and every address but null keeps its holders:
    the objects need no change. *)
Lemma permute_sound (m : memory) (H' : gmap N intrusive_ptr) :
  consistent m ->
  (forall p, p <> nullptr -> holders H' p = holders (handles m) p) ->
  consistent (set_handles (fun _ => H') m) /\ evolves m (set_handles (fun _ => H') m).
Proof.
  intros [C0 C1 C2 C3 C4] Hsame. split; split; cbn; try done.
  - intros x h Hx Hp.
    destruct (holders_some (handles m) (ptr h)) as (y & g & Hy & Hg).
    { rewrite <- Hsame by done. by eapply holders_held. }
    rewrite <- Hg in *. by eapply C1.
  - intros p o Ho. rewrite Hsame; [by apply C2|]. congruence.
  - intros p [o Ho] H0. rewrite <- Hsame; [done|congruence].
  - intros p [o Ho] Hn. congruence.
Qed.

(** A handle comes to life at [x] with the address of a live object and
    adds one to its counter. *)
Lemma acquire_sound (m : memory) (x : var) (h : intrusive_ptr) (o : intrusive_ref_counter) :
  consistent m ->
  handles m !! x = None -> ptr h <> nullptr -> objects m !! ptr h = Some o ->
  Z.of_nat (size (handles m)) + 1 < 2 ^ unsigned_int_bits ->
  consistent (set_objects <[ptr h := {| ref_count := to_size_t (ref_count o + 1) |}]>
                (set_handles <[x := h]> m)) /\
  evolves m (set_objects <[ptr h := {| ref_count := to_size_t (ref_count o + 1) |}]>
                (set_handles <[x := h]> m)).
Proof.
  intros [C0 C1 C2 C3 C4] Hx Hp Ho Hsize.
  assert (2 ^ unsigned_int_bits < 2 ^ size_t_bits) as Hbits by (by compute).
  pose proof (holders_le_size (handles m) (ptr h)) as Hle.
  pose proof (C2 _ _ Ho) as Hc.
  split; split; cbn.
  - by rewrite lookup_insert_ne.
  - intros y g Hy Hg. apply lookup_insert_is_Some'.
    destruct (decide (y = x)) as [->|Hne].
    + rewrite lookup_insert_eq in Hy. injection Hy as <-. by left.
    + rewrite lookup_insert_ne in Hy by done. right. by eapply C1.
  - intros p o' Ho'. rewrite holders_acquire by done.
    destruct (decide (ptr h = p)) as [<-|Hne].
    + rewrite lookup_insert_eq in Ho'. injection Ho' as <-. cbn.
      rewrite to_size_t_id by (unfold is_size_t; lia). lia.
    + rewrite lookup_insert_ne in Ho' by done. by apply C2.
  - done.
  - intros p Hd. destruct (decide (ptr h = p)) as [<-|Hne].
    + apply C4 in Hd. congruence.
    + rewrite lookup_insert_ne by done. by apply C4.
  - intros p Hs. apply lookup_insert_is_Some' in Hs as [<-|Hs]; [by eexists|done].
  - intros p Hs. rewrite holders_acquire by done.
    destruct (decide (ptr h = p)); [done|done].
  - done.
  - intros p Hs Hn. destruct (decide (ptr h = p)) as [<-|Hne].
    + by rewrite lookup_insert_eq in Hn.
    + rewrite lookup_insert_ne in Hn by done. destruct Hs. congruence.
Qed.

(** The life of a handle that holds a live object ends: the counter loses
    one, and the object is deleted when that was the last unit. *)
Lemma retire_sound (m m' : memory) (x : var) (h : intrusive_ptr) (o : intrusive_ref_counter) :
  consistent m ->
  handles m !! x = Some h -> ptr h <> nullptr -> objects m !! ptr h = Some o ->
  Z.of_nat (size (handles m)) < 2 ^ unsigned_int_bits ->
  dtor x m = Ok tt m' ->
  consistent m' /\ evolves m m'.
Proof.
  intros [C0 C1 C2 C3 C4] Hx Hp Ho Hsize Hrun.
  assert (2 ^ unsigned_int_bits < 2 ^ size_t_bits) as Hbits by (by compute).
  pose proof (holders_le_size (handles m) (ptr h)) as Hle.
  pose proof (C2 _ _ Ho) as Hc.
  pose proof (holders_retire (handles m) x h (ptr h) Hx) as Hret.
  rewrite decide_True in Hret by done.
  assert (forall q, q <> ptr h ->
            holders (delete x (handles m)) q = holders (handles m) q) as Hother.
  { intros q Hq. rewrite (holders_retire (handles m) x h q Hx).
    by rewrite decide_False by congruence. }
  assert (ptr h ∉ (deleted m).*1) as Hlive by (intros Hd; apply C4 in Hd; congruence).
  rewrite (dtor_live m x h o) in Hrun by done. cbn zeta in Hrun.
  rewrite to_size_t_id in Hrun by (unfold is_size_t; lia).
  unfold use_count, to_unsigned_int in Hrun. cbn [ref_count] in Hrun.
  rewrite Z.mod_small in Hrun by lia.
  destruct (Z.eqb_spec (ref_count o - 1) 0) as [Hlast|Hmore]; injection Hrun as <-.
  - assert (holders (delete x (handles m)) (ptr h) = 0%nat) as Hnone by lia.
    split; split; cbn.
    + by rewrite lookup_delete_ne.
    + intros y g Hy Hg. apply lookup_delete_Some in Hy as [Hne Hy].
      rewrite lookup_delete_ne; [by eapply C1|].
      intros Heq. by eapply (holders_none _ _ Hnone y g); [rewrite lookup_delete_ne|].
    + intros p o' Ho'. apply lookup_delete_Some in Ho' as [Hne Ho'].
      rewrite Hother by done. by apply C2.
    + rewrite fmap_app. apply NoDup_app. split; [done|]. split; [|apply NoDup_singleton].
      intros p Hd Hs. cbn in Hs. apply list_elem_of_singleton in Hs. congruence.
    + intros p Hd. rewrite fmap_app in Hd. apply elem_of_app in Hd as [Hd|Hd].
      * rewrite lookup_delete_ne; [by apply C4|]. intros <-. done.
      * cbn in Hd. apply list_elem_of_singleton in Hd as ->. apply lookup_delete_eq.
    + intros p [o' Ho']. apply lookup_delete_Some in Ho' as [_ Ho']. by eexists.
    + intros p [o' Ho'] H0. apply lookup_delete_Some in Ho' as [Hne _].
      by rewrite <- Hother.
    + by apply prefix_app_r.
    + intros p [o' Ho'] Hn. rewrite fmap_app. apply elem_of_app. right. cbn.
      apply list_elem_of_singleton. apply lookup_delete_None in Hn as [?|?]; congruence.
  - split; split; cbn.
    + by rewrite lookup_insert_ne.
    + intros y g Hy Hg. apply lookup_delete_Some in Hy as [Hne Hy].
      apply lookup_insert_is_Some'. right. by eapply C1.
    + intros p o' Ho'. destruct (decide (ptr h = p)) as [<-|Hne].
      * rewrite lookup_insert_eq in Ho'. injection Ho' as <-. cbn. lia.
      * rewrite lookup_insert_ne in Ho' by done. rewrite Hother by done. by apply C2.
    + done.
    + intros p Hd. rewrite lookup_insert_ne; [by apply C4|]. intros <-. done.
    + intros p Hs. apply lookup_insert_is_Some' in Hs as [<-|Hs]; [by eexists|done].
    + intros p Hs H0. destruct (decide (ptr h = p)) as [<-|Hne]; [lia|].
      by rewrite <- Hother.
    + done.
    + intros p [o' Ho'] Hn. apply lookup_insert_None in Hn as [Hn _]. congruence.
Qed.

Lemma sound_ret : sound (mret tt) 0.
Proof.
  intros m m' Hc _ [= <-]. split; [done|]. split; [apply evolves_refl|lia].
Qed.

Lemma sound_bind (c1 c2 : M unit) (g1 g2 : nat) :
  sound c1 g1 -> sound c2 g2 -> sound (c1;; c2) (g1 + g2).
Proof.
  intros H1 H2 m m' Hc Hsize Hrun. unfold_m_in Hrun.
  destruct (c1 m) as [[] m1|e] eqn:Hm1; [|done].
  destruct (H1 m m1) as (Hc1 & He1 & Hs1); [done|lia|done|].
  destruct (H2 m1 m') as (Hc2 & He2 & Hs2); [done|lia|done|].
  split; [done|]. split; [by eapply evolves_trans|lia].
Qed.

Lemma sound_temporary (body : var -> M unit) (g : nat) :
  (forall t, sound (body t) g) -> sound (t ← temporary; body t) g.
Proof. intros Hb m m' Hc Hsize Hrun. by eapply (Hb (fresh (dom (handles m)))). Qed.

Lemma sound_ctor_default (x : var) : sound (ctor_default x) 1.
Proof.
  intros m m' Hc Hsize Hrun. unfold ctor_default, init_ptr in Hrun.
  destruct (handles m !! x) eqn:Hx; [done|]. injection Hrun as <-.
  destruct (permute_sound m (<[x := null_handle]> (handles m))) as [Hc' He]; [done| |].
  - intros p Hp. rewrite holders_acquire by done. by rewrite decide_False.
  - split; [done|]. split; [done|]. cbn. rewrite map_size_insert_None by done. lia.
Qed.

Lemma sound_ctor_raw (x : var) (p : addr) : sound (ctor_raw x p true) 1.
Proof.
  intros m m' Hc Hsize Hrun.
  unfold ctor_raw, init_ptr, get_ptr in Hrun. unfold_m_in Hrun.
  destruct (handles m !! x) eqn:Hx; [done|]. revert Hrun. run. intros Hrun.
  destruct (decide (p = nullptr)) as [->|Hp]; [done|].
  destruct (objects m !! p) as [o|] eqn:Ho.
  - erewrite add_ref_live in Hrun by done. injection Hrun as <-.
    destruct (acquire_sound m x {| ptr := p |} o) as [Hc' He]; [done|done|done|done|lia|].
    split; [done|]. split; [done|]. cbn. rewrite map_size_insert_None by done. lia.
  - unfold intrusive_ptr_add_ref, fetch_add, at_ in Hrun. revert Hrun. by run.
Qed.

Lemma sound_ctor_copy (x r : var) : sound (ctor_copy x r) 1.
Proof.
  intros m m' Hc Hsize Hrun.
  unfold ctor_copy, init_ptr, get_ptr in Hrun. unfold_m_in Hrun.
  destruct (handles m !! r) as [[p]|] eqn:Hr; [|done]. cbn [ptr] in Hrun.
  destruct (handles m !! x) eqn:Hx; [done|]. revert Hrun. run. intros Hrun.
  destruct (decide (p = nullptr)) as [->|Hp].
  - injection Hrun as <-.
    destruct (permute_sound m (<[x := null_handle]> (handles m))) as [Hc' He]; [done| |].
    + intros p Hp. rewrite holders_acquire by done. by rewrite decide_False.
    + split; [done|]. split; [done|]. cbn. rewrite map_size_insert_None by done. lia.
  - apply N.eqb_neq in Hp as Hb. rewrite Hb in Hrun. cbn [negb] in Hrun.
    destruct (handles_hold_objects m Hc r {| ptr := p |} Hr Hp) as [o Ho].
    erewrite add_ref_live in Hrun by done. injection Hrun as <-.
    destruct (acquire_sound m x {| ptr := p |} o) as [Hc' He]; [done|done|done|done|lia|].
    split; [done|]. split; [done|]. cbn. rewrite map_size_insert_None by done. lia.
Qed.

Lemma sound_ctor_move (x r : var) : sound (ctor_move x r) 1.
Proof.
  intros m m' Hc Hsize Hrun.
  destruct (handles m !! r) as [h|] eqn:Hr;
    [|unfold ctor_move, get_ptr in Hrun; unfold_m_in Hrun; by rewrite Hr in Hrun].
  destruct (handles m !! x) as [g|] eqn:Hx.
  { unfold ctor_move, get_ptr, init_ptr in Hrun. unfold_m_in Hrun. by rewrite Hr, Hx in Hrun. }
  rewrite (ctor_move_live m x r h) in Hrun by done. injection Hrun as <-.
  destruct (permute_sound m (<[r := null_handle]> (<[x := h]> (handles m))))
    as [Hc' He]; [done| |].
  - intros p Hp. by apply holders_move.
  - split; [done|]. split; [done|]. cbn.
    rewrite map_size_insert_Some, map_size_insert_None; [lia|done|].
    rewrite lookup_insert_ne by congruence. by eexists.
Qed.

Lemma sound_swap (x y : var) : sound (swap x y) 0.
Proof.
  intros m m' Hc Hsize Hrun. unfold swap, get_ptr, set_ptr in Hrun. unfold_m_in Hrun.
  destruct (handles m !! x) as [[p]|] eqn:Hx; [|done].
  destruct (handles m !! y) as [[q]|] eqn:Hy; [|done].
  revert Hrun. run. cbn [ptr].
  assert (is_Some (<[x := {| ptr := q |}]> (handles m) !! y)) as [g Hg].
  { apply lookup_insert_is_Some'. right. by eexists. }
  rewrite Hg. intros [= <-].
  destruct (permute_sound m (<[y := {| ptr := p |}]> (<[x := {| ptr := q |}]> (handles m))))
    as [Hc' He]; [done| |].
  - intros a Ha. by apply holders_swap.
  - split; [done|]. split; [done|]. cbn.
    rewrite !map_size_insert_Some; [lia|by eexists|by eexists].
Qed.

Lemma sound_dtor (x : var) : sound (dtor x) 0.
Proof.
  intros m m' Hc Hsize Hrun.
  destruct (handles m !! x) as [[p]|] eqn:Hx;
    [|unfold dtor, get_ptr in Hrun; unfold_m_in Hrun; by rewrite Hx in Hrun].
  assert (size (handles m') <= size (handles m) + 0)%nat as Hs.
  { unfold dtor, get_ptr, end_lifetime in Hrun. unfold_m_in Hrun. rewrite Hx in Hrun.
    cbn [ptr] in Hrun.
    assert (forall m1, (if negb (p =? nullptr)%N then intrusive_ptr_release p
                        else fun m0 => Ok tt m0) m = Ok tt m1 ->
                       handles m1 = handles m) as Hkeep.
    { intros m1. destruct (negb (p =? nullptr)%N); [by apply release_keeps_handles|].
      by intros [= <-]. }
    destruct ((if negb (p =? nullptr)%N then intrusive_ptr_release p
               else fun m0 => Ok tt m0) m) as [[] m1|e]; [|done].
    specialize (Hkeep m1 eq_refl) as Hh.
    rewrite Hh, Hx in Hrun. injection Hrun as <-. cbn. rewrite Hh.
    rewrite map_size_delete_Some by (by eexists). lia. }
  destruct (decide (p = nullptr)) as [->|Hp].
  - unfold dtor, get_ptr, end_lifetime in Hrun. revert Hrun. run. intros [= <-].
    destruct (permute_sound m (delete x (handles m))) as [Hc' He]; [done| |done].
    intros p Hp. rewrite (holders_retire (handles m) x null_handle p Hx).
    by rewrite decide_False.
  - destruct (handles_hold_objects m Hc x {| ptr := p |} Hx Hp) as [o Ho].
    destruct (retire_sound m m' x {| ptr := p |} o) as [Hc' He]; [done|done|done|done|lia|done|done].
Qed.

Lemma sound_weaken (c : M unit) (g g' : nat) :
  sound c g -> (g <= g')%nat -> sound c g'.
Proof.
  intros Hs Hg m m' Hc Hsize Hrun.
  destruct (Hs m m') as (Hc' & He & Hn); [done|lia|done|].
  split; [done|]. split; [done|lia].
Qed.

Lemma sound_exec (s : statement) : sound (exec s) 1.
Proof.
  destruct s; cbn [exec].
  - apply sound_ctor_default.
  - apply sound_ctor_raw.
  - apply sound_ctor_copy.
  - apply sound_ctor_move.
  - apply (sound_weaken _ 0); [apply sound_dtor|lia].
  - apply sound_temporary. intros t.
    apply (sound_bind _ _ 1 0); [apply sound_ctor_copy|].
    apply (sound_bind _ _ 0 0); [apply sound_swap|apply sound_dtor].
  - apply sound_temporary. intros t.
    apply (sound_bind _ _ 1 0); [apply sound_ctor_raw|].
    apply (sound_bind _ _ 0 0); [apply sound_swap|apply sound_dtor].
  - apply sound_temporary. intros t.
    apply (sound_bind _ _ 1 0); [apply sound_ctor_move|].
    apply (sound_bind _ _ 0 0); [apply sound_swap|apply sound_dtor].
  - apply sound_temporary. intros t.
    apply (sound_bind _ _ 1 0); [apply sound_ctor_default|].
    apply (sound_bind _ _ 0 0); [apply sound_swap|apply sound_dtor].
  - apply sound_temporary. intros t.
    apply (sound_bind _ _ 1 0); [apply sound_ctor_raw|].
    apply (sound_bind _ _ 0 0); [apply sound_swap|apply sound_dtor].
  - apply (sound_weaken _ 0); [apply sound_swap|lia].
Qed.

Lemma sound_exec_all (l : list statement) : sound (exec_all l) (length l).
Proof.
  induction l as [|s l IH]; cbn [exec_all length].
  - apply sound_ret.
  - apply (sound_bind _ _ 1 (length l)); [apply sound_exec|done].
Qed.

Lemma few_handles_short (l : list statement) : forall (m : memory),
  consistent m ->
  Z.of_nat (size (handles m)) + Z.of_nat (length l) < 2 ^ unsigned_int_bits ->
  few_handles m l.
Proof.
  induction l as [|s l IH]; intros m Hc Hsize; cbn [few_handles length] in *; [done|].
  split; [lia|]. intros m1 Hm1.
  destruct (sound_exec s m m1) as (Hc1 & _ & Hs1); [done|lia|done|].
  apply IH; [done|lia].
Qed.

Lemma handle_programs_sound (l : list statement) : forall (m m' : memory),
  consistent m -> few_handles m l -> exec_all l m = Ok tt m' ->
  consistent m' /\ evolves m m'.
Proof.
  induction l as [|s l IH]; intros m m' Hc Hfew Hrun; cbn [exec_all few_handles] in *.
  - injection Hrun as <-. split; [done|apply evolves_refl].
  - destruct Hfew as [Hsize Hfew]. unfold_m_in Hrun.
    destruct (exec s m) as [[] m1|e] eqn:Hm1; [|done].
    destruct (sound_exec s m m1) as (Hc1 & He1 & _); [done|lia|done|].
    destruct (IH m1 m') as (Hc' & He'); [done|by apply Hfew|done|].
    split; [done|]. by eapply evolves_trans.
Qed.

(** In a sequential program that takes every unit through a handle and
    that at each statement has fewer than [2 ^ 32] handles, the one the
    statement makes among them, whatever the order and the number of its
    statements: a handle that is not null points to a live object that was
    never deleted; no object is deleted twice; and an object that handles
    held before the program and that no handle holds after it is deleted,
    by that program. *)
Theorem handle_programs_destroy_once (l : list statement) (m m' : memory) :
  consistent m ->
  few_handles m l ->
  exec_all l m = Ok tt m' ->
  consistent m' /\
  (forall x h, handles m' !! x = Some h -> ptr h <> nullptr ->
     is_Some (objects m' !! ptr h) /\ ptr h ∉ (deleted m').*1) /\
  NoDup (deleted m').*1 /\
  (forall p, p <> nullptr ->
     (0 < holders (handles m) p)%nat -> holders (handles m') p = 0%nat ->
     p ∈ (deleted m').*1 /\ p ∉ (deleted m).*1).
Proof.
  intros Hc Hfew Hrun.
  destruct (handle_programs_sound l m m') as (Hc' & He); [done..|].
  split; [done|]. split; [|split; [by destruct Hc'|]].
  - intros x h Hx Hp. pose proof (handles_hold_objects m' Hc' x h Hx Hp) as Hlive.
    split; [done|]. intros Hd. apply (deleted_is_gone m' Hc') in Hd.
    destruct Hlive. congruence.
  - intros p Hp Hheld Hnone.
    destruct (holders_some _ _ Hheld) as (x & h & Hx & <-).
    pose proof (handles_hold_objects m Hc x h Hx Hp) as Hlive.
    split.
    + apply (gone_is_deleted m m' He); [done|].
      destruct (objects m' !! ptr h) as [o|] eqn:Ho; [|done].
      pose proof (unheld_was_unheld m m' He (ptr h)) as Hu.
      rewrite Ho in Hu. specialize (Hu (mk_is_Some _ _ eq_refl) Hnone). lia.
    + intros Hd. apply (deleted_is_gone m Hc) in Hd. destruct Hlive. congruence.
Qed.

Lemma holders_empty (p : addr) : holders ∅ p = 0%nat.
Proof. unfold holders. by rewrite map_filter_empty, map_size_empty. Qed.

Lemma unreferenced_object_consistent : consistent (one_object 0 []).
Proof.
  split; cbn.
  - done.
  - intros x h Hx. by rewrite lookup_empty in Hx.
  - intros p o Ho. apply lookup_singleton_Some in Ho as [_ <-].
    by rewrite holders_empty.
  - apply NoDup_nil_2.
  - intros p Hp. by apply elem_of_nil in Hp.
Qed.

Lemma three_handles_run :
  exec_all three_handles (one_object 0 [])
    = Ok tt {| objects := ∅; handles := ∅;
               deleted := [(1%N, of_intrusive_ref_counter)] |}.
Proof. vm_compute. reflexivity. Qed.

Lemma two_objects_consistent : consistent two_objects.
Proof.
  split; cbn.
  - reflexivity.
  - intros x h Hx _. apply lookup_insert_Some in Hx as [[_ <-]|[_ Hx]].
    { eexists. reflexivity. }
    apply lookup_singleton_Some in Hx as [_ <-]. eexists. reflexivity.
  - intros p o Ho. apply lookup_insert_Some in Ho as [[<- <-]|[_ Ho]].
    { vm_compute. reflexivity. }
    apply lookup_singleton_Some in Ho as [<- <-]. vm_compute. reflexivity.
  - apply NoDup_nil_2.
  - intros p Hp. by apply elem_of_nil in Hp.
Qed.

Lemma share_second_run :
  exec_all share_second two_objects
    = Ok tt {| objects := {[ 2%N := {| ref_count := 2 |} ]};
               handles := {[ 0%N := {| ptr := 2%N |}; 2%N := {| ptr := 2%N |} ]};
               deleted := [(1%N, of_intrusive_ref_counter)] |}.
Proof. vm_compute. reflexivity. Qed.

Lemma share_second_few_handles : few_handles two_objects share_second.
Proof.
  unfold share_second.
  repeat (cbn [few_handles]; split;
          [vm_compute; reflexivity
          |let m' := fresh "m" in let Hm := fresh "Hm" in
           intros m' Hm; vm_compute in Hm; injection Hm as <-]).
  exact I.
Qed.

Lemma handle_programs_destroy_once_witness :
  is_Some (objects {| objects := {[ 2%N := {| ref_count := 2 |} ]};
                      handles := {[ 0%N := {| ptr := 2%N |}; 2%N := {| ptr := 2%N |} ]};
                      deleted := [(1%N, of_intrusive_ref_counter)] |} !! 2%N) /\
  (2%N ∉ [(1%N, of_intrusive_ref_counter)].*1) /\
  (1%N ∈ [(1%N, of_intrusive_ref_counter)].*1) /\
  NoDup [(1%N, of_intrusive_ref_counter)].*1.
Proof.
  destruct (handle_programs_destroy_once share_second two_objects
              {| objects := {[ 2%N := {| ref_count := 2 |} ]};
                 handles := {[ 0%N := {| ptr := 2%N |}; 2%N := {| ptr := 2%N |} ]};
                 deleted := [(1%N, of_intrusive_ref_counter)] |})
    as (_ & Hheld & Hn & Hgone).
  - exact two_objects_consistent.
  - exact share_second_few_handles.
  - exact share_second_run.
  - destruct (Hheld 0%N {| ptr := 2%N |}) as [Hlive Hnot];
      [reflexivity|discriminate|].
    destruct (Hgone 1%N) as [Hin _];
      [discriminate|vm_compute; constructor|vm_compute; reflexivity|].
    split; [exact Hlive|]. split; [exact Hnot|]. split; [exact Hin|exact Hn].
Defined.

(** ** Programs in scope run to the end *)

Lemma swap_live (m : memory) (x y : var) (hx hy : intrusive_ptr) :
  handles m !! x = Some hx -> handles m !! y = Some hy ->
  swap x y m = Ok tt (set_handles (fun H => <[y := hx]> (<[x := hy]> H)) m).
Proof.
  intros Hx Hy. destruct hx as [p], hy as [q].
  unfold swap, get_ptr, set_ptr. run.
  destruct (decide (x = y)) as [->|Hne]; by run.
Qed.

Lemma ctor_raw_live (m : memory) (x : var) (p : addr) (o : intrusive_ref_counter) :
  handles m !! x = None -> p <> nullptr -> objects m !! p = Some o ->
  ctor_raw x p true m =
    Ok tt (set_objects <[p := {| ref_count := to_size_t (ref_count o + 1) |}]>
             (set_handles <[x := {| ptr := p |}]> m)).
Proof.
  intros Hx Hp Ho. unfold ctor_raw, init_ptr, get_ptr. run.
  by erewrite add_ref_live.
Qed.

Lemma ctor_copy_null (m : memory) (x r : var) :
  handles m !! r = Some null_handle -> handles m !! x = None ->
  ctor_copy x r m = Ok tt (set_handles <[x := null_handle]> m).
Proof.
  intros Hr Hx. assert (x <> r) by congruence.
  unfold ctor_copy, get_ptr, init_ptr. by run.
Qed.

Lemma dtor_null (m : memory) (x : var) :
  handles m !! x = Some null_handle ->
  dtor x m = Ok tt (set_handles (delete x) m).
Proof. intros Hx. unfold dtor, get_ptr, end_lifetime. by run. Qed.

Lemma dtor_returns (m : memory) (x : var) :
  consistent m -> is_Some (handles m !! x) -> exists m', dtor x m = Ok tt m'.
Proof.
  intros Hc [[p] Hx]. destruct (decide (p = nullptr)) as [->|Hp].
  - eexists. by apply dtor_null.
  - destruct (handles_hold_objects m Hc x _ Hx Hp) as [o Ho].
    rewrite (dtor_live m x {| ptr := p |} o) by done. cbn zeta.
    destruct (use_count _ =? 0); by eexists.
Qed.

(** The pattern of every assignment and reset: a temporary is constructed,
    swapped with the target and destroyed. *)
Lemma construct_swap_destroy_returns (ctor : var -> M unit) (x : var) (m : memory) :
  consistent m ->
  Z.of_nat (size (handles m)) + 1 < 2 ^ unsigned_int_bits ->
  is_Some (handles m !! x) ->
  (forall t, sound (ctor t) 1) ->
  (forall t, handles m !! t = None ->
     exists m1, ctor t m = Ok tt m1 /\
       is_Some (handles m1 !! t) /\ is_Some (handles m1 !! x)) ->
  exists m', (t ← temporary; ctor t;; swap t x;; dtor t) m = Ok tt m'.
Proof.
  intros Hc Hsize Hx Hsound Hctor. name_temporary m t Ht. unfold_m.
  fold t.
  destruct (Hctor t Ht) as (m1 & Hm1 & [ht Ht1] & [hx Hx1]). rewrite Hm1.
  destruct (Hsound t m m1) as (Hc1 & _ & Hs1); [done|lia|done|].
  rewrite (swap_live m1 t x ht hx) by done.
  set (m2 := set_handles _ m1).
  destruct (sound_swap t x m1 m2) as (Hc2 & _ & _);
    [done|lia|by apply swap_live|].
  destruct (dtor_returns m2 t) as [m3 Hm3]; [done| |by exists m3].
  subst m2. cbn. destruct (decide (x = t)) as [->|Hne].
  - rewrite lookup_insert_eq. by eexists.
  - rewrite lookup_insert_ne by done. rewrite lookup_insert_eq. by eexists.
Qed.

Lemma ctor_copy_returns (m : memory) (x r : var) :
  consistent m -> handles m !! x = None -> is_Some (handles m !! r) ->
  exists m1, ctor_copy x r m = Ok tt m1 /\
    is_Some (handles m1 !! x) /\
    forall y, is_Some (handles m !! y) -> is_Some (handles m1 !! y).
Proof.
  intros Hc Hx [[p] Hr]. destruct (decide (p = nullptr)) as [->|Hp].
  - eexists. split; [by apply ctor_copy_null|]. cbn. split.
    + rewrite lookup_insert_eq. by eexists.
    + intros y Hy. apply lookup_insert_is_Some'. by right.
  - destruct (handles_hold_objects m Hc r _ Hr Hp) as [o Ho].
    eexists. split; [by apply (ctor_copy_live m x r {| ptr := p |} o)|]. cbn. split.
    + rewrite lookup_insert_eq. by eexists.
    + intros y Hy. apply lookup_insert_is_Some'. by right.
Qed.

Lemma ctor_raw_returns (m : memory) (x : var) (p : addr) :
  handles m !! x = None -> live m p ->
  exists m1, ctor_raw x p true m = Ok tt m1 /\
    is_Some (handles m1 !! x) /\
    forall y, is_Some (handles m !! y) -> is_Some (handles m1 !! y).
Proof.
  intros Hx [Hp [o Ho]].
  eexists. split; [by apply (ctor_raw_live m x p o)|]. cbn. split.
  - rewrite lookup_insert_eq. by eexists.
  - intros y Hy. apply lookup_insert_is_Some'. by right.
Qed.

Lemma ctor_default_returns (m : memory) (x : var) :
  handles m !! x = None ->
  exists m1, ctor_default x m = Ok tt m1 /\
    is_Some (handles m1 !! x) /\
    forall y, is_Some (handles m !! y) -> is_Some (handles m1 !! y).
Proof.
  intros Hx. eexists. split; [by apply ctor_default_null|]. cbn. split.
  - rewrite lookup_insert_eq. by eexists.
  - intros y Hy. apply lookup_insert_is_Some'. by right.
Qed.

Lemma ctor_move_returns (m : memory) (x r : var) :
  handles m !! x = None -> is_Some (handles m !! r) ->
  exists m1, ctor_move x r m = Ok tt m1 /\
    is_Some (handles m1 !! x) /\
    forall y, is_Some (handles m !! y) -> is_Some (handles m1 !! y).
Proof.
  intros Hx [h Hr]. assert (x <> r) by congruence.
  eexists. split; [by apply ctor_move_live|]. cbn. split.
  - rewrite lookup_insert_ne by done. rewrite lookup_insert_eq. by eexists.
  - intros y Hy. apply lookup_insert_is_Some'.
    destruct (decide (r = y)); [by left|right].
    apply lookup_insert_is_Some'. by right.
Qed.

Lemma scoped_statement_returns (m : memory) (s : statement) :
  consistent m ->
  Z.of_nat (size (handles m)) + 1 < 2 ^ unsigned_int_bits ->
  scoped m s ->
  exists m', exec s m = Ok tt m'.
Proof.
  intros Hc Hsize Hs. destruct s; cbn [exec scoped] in *.
  - destruct (ctor_default_returns m x Hs) as (m1 & ? & _). by exists m1.
  - destruct Hs as [Hx Hp]. destruct (ctor_raw_returns m x p Hx Hp) as (m1 & ? & _).
    by exists m1.
  - destruct Hs as [Hx Hr]. destruct (ctor_copy_returns m x r Hc Hx Hr) as (m1 & ? & _).
    by exists m1.
  - destruct Hs as [Hx Hr]. destruct (ctor_move_returns m x r Hx Hr) as (m1 & ? & _).
    by exists m1.
  - by apply dtor_returns.
  - destruct Hs as [Hx Hr].
    apply (construct_swap_destroy_returns (fun t => ctor_copy t r)); try done.
    + intros t. apply sound_ctor_copy.
    + intros t Ht. destruct (ctor_copy_returns m t r Hc Ht Hr) as (m1 & ? & ? & Hk).
      exists m1. auto.
  - destruct Hs as [Hx Hp].
    apply (construct_swap_destroy_returns (fun t => ctor_raw t p true)); try done.
    + intros t. apply sound_ctor_raw.
    + intros t Ht. destruct (ctor_raw_returns m t p Ht Hp) as (m1 & ? & ? & Hk).
      exists m1. auto.
  - destruct Hs as [Hx Hr].
    apply (construct_swap_destroy_returns (fun t => ctor_move t r)); try done.
    + intros t. apply sound_ctor_move.
    + intros t Ht. destruct (ctor_move_returns m t r Ht Hr) as (m1 & ? & ? & Hk).
      exists m1. auto.
  - apply (construct_swap_destroy_returns (fun t => ctor_default t)); try done.
    + intros t. apply sound_ctor_default.
    + intros t Ht. destruct (ctor_default_returns m t Ht) as (m1 & ? & ? & Hk).
      exists m1. auto.
  - destruct Hs as [Hx Hp].
    apply (construct_swap_destroy_returns (fun t => ctor_raw t p true)); try done.
    + intros t. apply sound_ctor_raw.
    + intros t Ht. destruct (ctor_raw_returns m t p Ht Hp) as (m1 & ? & ? & Hk).
      exists m1. auto.
  - destruct Hs as [[hx Hx] [hy Hy]]. eexists. by apply swap_live.
Qed.

(** A sequential program that takes every unit through a handle, whose
    statements are in scope and which at each statement has fewer than
    [2 ^ 32] handles, the one the statement makes among them, runs to its
    end: it dereferences no null and no dangling address, deletes at no
    address where no object lives and uses no handle outside its lifetime.
    The memory it ends in is consistent.  What the delete-expression does
    to the object it deletes is not part of this. *)
Theorem programs_in_scope_return (l : list statement) : forall (m : memory),
  consistent m ->
  few_handles m l ->
  in_scope m l ->
  exists m', exec_all l m = Ok tt m' /\ consistent m'.
Proof.
  induction l as [|s l IH]; intros m Hc Hfew Hl; cbn [exec_all in_scope few_handles] in *.
  - by exists m.
  - destruct Hl as [Hs Hl]. destruct Hfew as [Hsize Hfew].
    destruct (scoped_statement_returns m s) as [m1 Hm1]; [done..|].
    destruct (sound_exec s m m1) as (Hc1 & _ & _); [done|lia|done|].
    destruct (IH m1) as (m' & Hm' & Hc'); [done|by apply Hfew|by apply Hl|].
    exists m'. unfold_m. by rewrite Hm1.
Qed.

Ltac scoped_here :=
  repeat match goal with
         | |- _ /\ _ => split
         | |- is_Some _ => eexists; vm_compute; reflexivity
         | |- _ <> _ => discriminate
         | |- _ = None => vm_compute; reflexivity
         end.

Lemma share_second_in_scope : in_scope two_objects share_second.
Proof.
  unfold share_second.
  repeat (cbn [in_scope]; split;
          [unfold scoped, live; scoped_here
          |let m' := fresh "m" in let Hm := fresh "Hm" in
           intros m' Hm; vm_compute in Hm; injection Hm as <-]).
  exact I.
Qed.

Lemma programs_in_scope_return_witness :
  exists m', exec_all share_second two_objects = Ok tt m' /\ consistent m'.
Proof.
  apply (programs_in_scope_return share_second two_objects).
  - exact two_objects_consistent.
  - exact share_second_few_handles.
  - exact share_second_in_scope.
Defined.

(** ** Swap, reset and assignment *)

(** The second half of every assignment and reset: the temporary gives
    its address to the target, takes the target's and releases it. *)
Lemma swap_destroy_temporary (m : memory) (t x : var) (h g : intrusive_ptr) :
  t <> x -> handles m !! t = Some h -> handles m !! x = Some g ->
  (swap t x;; dtor t) m =
    (if negb (ptr g =? nullptr)%N then intrusive_ptr_release (ptr g) else mret tt)
      (set_handles (fun H => <[x := h]> (delete t H)) m).
Proof.
  intros Hne Ht Hx. unfold_m. rewrite (swap_live m t x h g) by done.
  destruct g as [q]. cbn [ptr].
  unfold dtor, get_ptr, end_lifetime. run.
  set (m2 := set_handles (fun H => <[x := h]> (delete t H)) m).
  assert (set_handles (fun H => <[x := h]> (<[t := {| ptr := q |}]> H)) m
          = set_handles <[t := {| ptr := q |}]> m2) as ->.
  { subst m2. unfold set_handles; cbn. f_equal. apply map_eq. intros i.
    destruct (decide (i = t)), (decide (i = x)); by simplify_map_eq. }
  assert (handles m2 !! t = None) as Ht2 by (subst m2; cbn; by simplify_map_eq).
  clearbody m2. destruct (negb (q =? nullptr)%N).
  - rewrite release_frame.
    destruct (intrusive_ptr_release q m2) as [[] m3|e] eqn:Hrel; [|done].
    apply release_keeps_handles in Hrel as Hh. run. f_equal.
    rewrite set_handles_twice. apply set_handles_same.
    apply handles_restored. by rewrite Hh.
  - run. f_equal. rewrite set_handles_twice. apply set_handles_same.
    by apply handles_restored.
Qed.

(** [swap] exchanges the addresses of two handles and touches nothing
    else: no counted object, no deletion, no other handle.  A second swap
    restores the memory, the order of the two operands does not matter,
    and the free function does the same. *)
Theorem swap_exchanges_addresses (m : memory) (x y : var) (hx hy : intrusive_ptr) :
  handles m !! x = Some hx ->
  handles m !! y = Some hy ->
  exists m1,
    swap x y m = Ok tt m1 /\
    objects m1 = objects m /\ deleted m1 = deleted m /\
    handles m1 !! x = Some hy /\ handles m1 !! y = Some hx /\
    (forall z, z <> x -> z <> y -> handles m1 !! z = handles m !! z) /\
    swap y x m = Ok tt m1 /\
    swap_free x y m = Ok tt m1 /\
    swap x y m1 = Ok tt m.
Proof.
  intros Hx Hy. eexists. split; [by apply swap_live|]. cbn.
  assert (<[y := hx]> (<[x := hy]> (handles m)) !! x = Some hy) as Hx1.
  { destruct (decide (x = y)) as [->|Hne]; simplify_map_eq; congruence. }
  assert (<[y := hx]> (<[x := hy]> (handles m)) !! y = Some hx) as Hy1
    by (by simplify_map_eq).
  do 4 (split; [done|]).
  split; [intros z Hzx Hzy; by simplify_map_eq|].
  split.
  { rewrite (swap_live m y x hy hx) by done. f_equal. unfold set_handles. f_equal.
    apply map_eq. intros i.
    destruct (decide (i = x)), (decide (i = y)); simplify_map_eq; congruence. }
  split; [by apply swap_live|].
  erewrite swap_live by (cbn; done). f_equal.
  rewrite set_handles_twice. apply set_handles_same.
  apply map_eq. intros i.
  destruct (decide (i = x)), (decide (i = y)); simplify_map_eq; congruence.
Qed.

Lemma swap_exchanges_addresses_witness :
  exists m1,
    swap 0%N 1%N (one_object 1 [(0%N, {| ptr := 1%N |}); (1%N, null_handle)]) = Ok tt m1 /\
    handles m1 !! 0%N = Some null_handle /\
    handles m1 !! 1%N = Some {| ptr := 1%N |}.
Proof.
  destruct (swap_exchanges_addresses
              (one_object 1 [(0%N, {| ptr := 1%N |}); (1%N, null_handle)])
              0%N 1%N {| ptr := 1%N |} null_handle)
    as (m1 & Hs & _ & _ & H0 & H1 & _).
  - reflexivity.
  - reflexivity.
  - exists m1. split; [exact Hs|]. split; [exact H0|exact H1].
Defined.

Lemma bind_ok {A B} (c : M A) (k : A -> M B) (m m' : memory) (a : A) :
  c m = Ok a m' -> (c ≫= k) m = k a m'.
Proof. intros Hc. unfold_m. by rewrite Hc. Qed.

(** An assignment or reset whose temporary is constructed to hold [h]:
    the target holds [h] and the address it held is released. *)
Lemma construct_swap_destroy (ctor : var -> M unit) (m m1 : memory) (x : var)
    (h g : intrusive_ptr) :
  handles m !! x = Some g ->
  ctor (fresh (dom (handles m))) m = Ok tt m1 ->
  handles m1 = <[fresh (dom (handles m)) := h]> (handles m) ->
  (t ← temporary; ctor t;; swap t x;; dtor t) m =
    (if negb (ptr g =? nullptr)%N then intrusive_ptr_release (ptr g) else mret tt)
      (set_handles (fun _ => <[x := h]> (handles m)) m1).
Proof.
  intros Hx Hctor Hh. pose proof (temporary_is_free m) as Ht.
  set (t := fresh (dom (handles m))) in *. assert (t <> x) by congruence.
  rewrite (bind_ok temporary _ m m t) by done.
  rewrite (bind_ok (ctor t) _ m m1 tt) by done.
  rewrite (swap_destroy_temporary m1 t x h g);
    [|done|rewrite Hh; by simplify_map_eq|rewrite Hh; by simplify_map_eq].
  assert (set_handles (fun H => <[x := h]> (delete t H)) m1
          = set_handles (fun _ => <[x := h]> (handles m)) m1) as ->; [|done].
  unfold set_handles. f_equal. rewrite Hh.
  by rewrite delete_insert_eq, delete_id.
Qed.

Lemma reset_releases (m : memory) (x : var) (g : intrusive_ptr) :
  handles m !! x = Some g ->
  reset x m =
    (if negb (ptr g =? nullptr)%N then intrusive_ptr_release (ptr g) else mret tt)
      (set_handles <[x := null_handle]> m).
Proof.
  intros Hx. unfold reset.
  by rewrite (construct_swap_destroy _ m (set_handles <[fresh (dom (handles m)) := null_handle]> m)
                x null_handle g Hx (ctor_default_null _ _ (temporary_is_free m))).
Qed.

(** [reset()] leaves the handle null and releases the unit it held: the
    counter of the object it held is one lower, or the object is deleted
    when [use_count()] then reads zero; no other object changes.  On a
    null handle it changes nothing, so a second [reset()] is the
    identity. *)
Theorem reset_gives_up_the_unit (m : memory) (x : var) (g : intrusive_ptr) :
  handles m !! x = Some g ->
  (ptr g = nullptr \/ exists o, objects m !! ptr g = Some o) ->
  exists m',
    reset x m = Ok tt m' /\
    handles m' = <[x := null_handle]> (handles m) /\
    get x m' = Ok nullptr m' /\
    operator_bool x m' = Ok false m' /\
    (forall p, p <> ptr g -> objects m' !! p = objects m !! p) /\
    (ptr g = nullptr -> m' = m) /\
    (forall o, ptr g <> nullptr -> objects m !! ptr g = Some o ->
       let o' := {| ref_count := to_size_t (ref_count o - 1) |} in
       if use_count o' =? 0
       then objects m' !! ptr g = None /\
            deleted m' = deleted m ++ [(ptr g, of_intrusive_ref_counter)]
       else objects m' !! ptr g = Some o' /\ deleted m' = deleted m) /\
    reset x m' = Ok tt m'.
Proof.
  intros Hx Hg. rewrite (reset_releases m x g Hx).
  set (m0 := set_handles <[x := null_handle]> m).
  assert (handles m0 !! x = Some null_handle) as Hx0 by (subst m0; cbn; by simplify_map_eq).
  assert (forall m', handles m' = handles m0 ->
            get x m' = Ok nullptr m' /\ operator_bool x m' = Ok false m' /\
            reset x m' = Ok tt m') as Hnull.
  { intros m' Hh. rewrite <- Hh in Hx0.
    destruct (null_handle_observed m' x Hx0) as [? ?]. do 2 (split; [done|]).
    rewrite (reset_releases m' x null_handle Hx0). cbn. unfold_m. f_equal.
    apply set_handles_same. by apply insert_id. }
  destruct (decide (ptr g = nullptr)) as [Hnull'|Hnn].
  - rewrite Hnull'. cbn. unfold_m. exists m0.
    destruct (Hnull m0 eq_refl) as (? & ? & ?).
    do 4 (split; [done|]). split; [done|].
    split; [|split; [done|done]].
    intros _. subst m0. apply set_handles_same, insert_id.
    destruct g as [q]. cbn in Hnull'. by subst q.
  - apply N.eqb_neq in Hnn as Hb. rewrite Hb. cbn [negb].
    destruct Hg as [?|[o Ho]]; [done|].
    pose proof (release_live m0 (ptr g) o Hnn Ho) as Hrel. cbn zeta in Hrel.
    destruct (intrusive_ptr_release (ptr g) m0) as [[] m'|e] eqn:Hm';
      [|by destruct (use_count _ =? 0)].
    exists m'. split; [done|].
    pose proof (release_keeps_handles _ _ _ Hm') as Hh.
    destruct (Hnull m' Hh) as (? & ? & ?).
    split; [by rewrite Hh|]. do 2 (split; [done|]).
    split; [intros p Hp; by apply (release_changes_one_object p (ptr g) m0)|].
    split; [done|]. split; [|done].
    intros o1 _ Ho1. assert (o1 = o) as -> by congruence. cbn zeta.
    revert Hrel. destruct (use_count _ =? 0); intros [= ->]; cbn; by simplify_map_eq.
Qed.

Lemma reset_gives_up_the_unit_witness :
  exists m',
    reset 0%N (one_object 1 [(0%N, {| ptr := 1%N |})]) = Ok tt m' /\
    get 0%N m' = Ok nullptr m' /\
    reset 0%N m' = Ok tt m'.
Proof.
  destruct (reset_gives_up_the_unit
              (one_object 1 [(0%N, {| ptr := 1%N |})]) 0%N {| ptr := 1%N |})
    as (m' & Hr & _ & Hg & _ & _ & _ & _ & Hr2).
  - reflexivity.
  - right. exists {| ref_count := 1 |}. reflexivity.
  - exists m'. split; [exact Hr|]. split; [exact Hg|exact Hr2].
Defined.

(** [detach()] followed by [reset(p, false)] on the same handle, with the
    address [detach()] returned, restores the memory: the handle holds its
    address again and no counter was touched, whatever the state of the
    pointee. *)
Theorem detach_then_reset_adopt_restores (m : memory) (x : var) (h : intrusive_ptr) :
  handles m !! x = Some h ->
  (p ← detach x; reset_raw_add_ref x p false) m = Ok tt m.
Proof.
  intros Hx. rewrite (bind_ok _ _ _ _ _ (detach_live m x h Hx)).
  set (m0 := set_handles <[x := null_handle]> m).
  assert (handles m0 !! x = Some null_handle) as Hx0 by (subst m0; cbn; by simplify_map_eq).
  unfold reset_raw_add_ref.
  rewrite (construct_swap_destroy _ m0 _ x {| ptr := ptr h |} null_handle Hx0
             (ctor_raw_adopt _ _ _ (temporary_is_free m0)) eq_refl).
  cbn. unfold_m. f_equal. subst m0. symmetry. apply memory_eq; cbn; [done| |done].
  rewrite insert_insert_eq. destruct h. by rewrite insert_id.
Qed.

Lemma detach_then_reset_adopt_restores_witness :
  (p ← detach 0%N; reset_raw_add_ref 0%N p false)
      (one_object 1 [(0%N, {| ptr := 1%N |})])
    = Ok tt (one_object 1 [(0%N, {| ptr := 1%N |})]).
Proof.
  apply (detach_then_reset_adopt_restores _ 0%N {| ptr := 1%N |}). reflexivity.
Defined.

(** The assignment and the reset from a raw address take the new unit
    before they release the old one: with the address the handle already
    holds they leave the memory as it was, and do not delete the object in
    between even when the handle is its only holder. *)
Theorem assign_own_address_is_identity (m : memory) (x : var) (h : intrusive_ptr)
    (o : intrusive_ref_counter) :
  handles m !! x = Some h ->
  ptr h <> nullptr ->
  objects m !! ptr h = Some o ->
  is_size_t (ref_count o) ->
  use_count o <> 0 ->
  assign_raw x (ptr h) m = Ok tt m /\ reset_raw x (ptr h) m = Ok tt m.
Proof.
  intros Hx Hp Ho Hc Hu. destruct h as [p]. cbn [ptr] in *.
  assert (assign_raw x p m = Ok tt m) as Ha; [|by split].
  unfold assign_raw.
  rewrite (construct_swap_destroy _ m _ x {| ptr := p |} {| ptr := p |} Hx
             (ctor_raw_live _ _ p o (temporary_is_free m) Hp Ho) eq_refl).
  cbn [ptr]. apply N.eqb_neq in Hp as Hb. rewrite Hb. cbn [negb].
  erewrite release_live by (try done; cbn; by simplify_map_eq).
  cbn zeta. cbn [ref_count]. rewrite use_count_restored by done.
  destruct (Z.eqb_spec (use_count o) 0) as [?|_]; [done|].
  f_equal. symmetry. apply memory_eq; cbn; [|by rewrite insert_id|done].
  rewrite insert_insert_eq, to_size_t_add_sub by done.
  destruct o. by rewrite insert_id.
Qed.

Lemma assign_own_address_is_identity_witness :
  assign_raw 0%N 1%N (one_object 1 [(0%N, {| ptr := 1%N |})])
    = Ok tt (one_object 1 [(0%N, {| ptr := 1%N |})]).
Proof.
  apply (assign_own_address_is_identity
           (one_object 1 [(0%N, {| ptr := 1%N |})]) 0%N {| ptr := 1%N |}
           {| ref_count := 1 |}).
  - reflexivity.
  - discriminate.
  - reflexivity.
  - split; [discriminate|reflexivity].
  - discriminate.
Defined.

(** Copy assignment from a handle of a live object: the target holds the
    address of the source and the source keeps it.  When the target held
    null or another object, the counter of the source's object is one
    higher and the unit the target held is released; when the target
    already held the same object (or is the source), nothing changes.
    Objects that neither handle held are untouched. *)
Theorem copy_assignment_shares_the_pointee (m : memory) (this r : var)
    (h g : intrusive_ptr) (o : intrusive_ref_counter) :
  handles m !! r = Some h ->
  handles m !! this = Some g ->
  ptr h <> nullptr ->
  objects m !! ptr h = Some o ->
  0 <= ref_count o -> ref_count o + 1 < 2 ^ size_t_bits ->
  (ptr g = nullptr \/ exists o', objects m !! ptr g = Some o') ->
  exists m',
    assign_copy this r m = Ok tt m' /\
    handles m' = <[this := h]> (handles m) /\
    (ptr g <> ptr h -> objects m' !! ptr h = Some {| ref_count := ref_count o + 1 |}) /\
    (ptr g = ptr h -> use_count o <> 0 -> m' = m) /\
    (forall p, p <> ptr h -> p <> ptr g -> objects m' !! p = objects m !! p).
Proof.
  intros Hr Hthis Hp Ho Hc0 Hc1 Hg.
  assert (is_size_t (ref_count o)) as Hc by (unfold is_size_t; lia).
  unfold assign_copy.
  rewrite (construct_swap_destroy _ m _ this h g Hthis
             (ctor_copy_live _ _ r h o Hr (temporary_is_free m) Hp Ho) eq_refl).
  rewrite (to_size_t_id (ref_count o + 1)) by (unfold is_size_t; lia).
  set (m2 := set_handles _ _).
  assert (handles m2 = <[this := h]> (handles m)) as Hh2 by done.
  assert (objects m2 = <[ptr h := {| ref_count := ref_count o + 1 |}]> (objects m))
    as Ho2 by done.
  assert (deleted m2 = deleted m) as Hd2 by done.
  clearbody m2. destruct (decide (ptr g = nullptr)) as [Hnull|Hnn].
  - rewrite Hnull. cbn. unfold_m. exists m2. do 2 (split; [done|]).
    split; [intros _; rewrite Ho2; by simplify_map_eq|].
    split; [congruence|]. intros p Hph _. rewrite Ho2. by simplify_map_eq.
  - apply N.eqb_neq in Hnn as Hb. rewrite Hb. cbn [negb].
    destruct Hg as [?|[o' Ho']]; [done|].
    assert (exists o2, objects m2 !! ptr g = Some o2) as [o2 Hobj2].
    { rewrite Ho2. apply lookup_insert_is_Some'. right. by eexists. }
    pose proof (release_live m2 (ptr g) o2 Hnn Hobj2) as Hrel. cbn zeta in Hrel.
    destruct (intrusive_ptr_release (ptr g) m2) as [[] m'|e] eqn:Hm';
      [|by destruct (use_count _ =? 0)].
    exists m'. split; [done|].
    split; [by rewrite (release_keeps_handles _ _ _ Hm')|].
    split; [|split].
    + intros Hne. rewrite (release_changes_one_object (ptr h) (ptr g) m2 m') by done.
      rewrite Ho2. by simplify_map_eq.
    + intros Heq Hu. rewrite Heq, Ho2, lookup_insert_eq in Hobj2.
      injection Hobj2 as <-. cbn [ref_count] in Hrel.
      replace (ref_count o + 1 - 1) with (ref_count o) in Hrel by lia.
      rewrite to_size_t_id in Hrel by done.
      destruct o as [c]. cbn [ref_count] in *.
      destruct (Z.eqb_spec (use_count {| ref_count := c |}) 0) as [?|_]; [done|].
      injection Hrel as ->. symmetry. apply memory_eq; cbn.
      * rewrite Ho2, Heq, insert_insert_eq. by rewrite insert_id.
      * rewrite Hh2. symmetry. apply insert_id. destruct g, h. cbn in Heq. by subst.
      * done.
    + intros p Hph Hpg.
      rewrite (release_changes_one_object p (ptr g) m2 m') by done.
      rewrite Ho2. by simplify_map_eq.
Qed.

Lemma copy_assignment_shares_the_pointee_witness :
  exists m',
    assign_copy 1%N 0%N (one_object 1 [(0%N, {| ptr := 1%N |}); (1%N, null_handle)])
      = Ok tt m' /\
    handles m' !! 1%N = Some {| ptr := 1%N |} /\
    objects m' !! 1%N = Some {| ref_count := 2 |}.
Proof.
  destruct (copy_assignment_shares_the_pointee
              (one_object 1 [(0%N, {| ptr := 1%N |}); (1%N, null_handle)])
              1%N 0%N {| ptr := 1%N |} null_handle {| ref_count := 1 |})
    as (m' & Ha & Hh & Ho & _).
  - reflexivity.
  - reflexivity.
  - discriminate.
  - reflexivity.
  - discriminate.
  - reflexivity.
  - left. reflexivity.
  - exists m'. split; [exact Ha|]. split.
    + rewrite Hh. reflexivity.
    + apply Ho. discriminate.
Defined.

(** ** Comparisons *)

Lemma get_live (m : memory) (x : var) (h : intrusive_ptr) :
  handles m !! x = Some h -> get x m = Ok (ptr h) m.
Proof. intros Hx. unfold get, get_ptr. by rewrite Hx. Qed.

Lemma operator_lt_live (m : memory) (a b : var) (ha hb : intrusive_ptr) :
  handles m !! a = Some ha -> handles m !! b = Some hb ->
  operator_lt a b m = Ok (ptr ha <? ptr hb)%N m.
Proof.
  intros Ha Hb. unfold operator_lt.
  rewrite (bind_ok _ _ _ _ _ (get_live m a ha Ha)).
  by rewrite (bind_ok _ _ _ _ _ (get_live m b hb Hb)).
Qed.

Lemma operator_eq_live (m : memory) (a b : var) (ha hb : intrusive_ptr) :
  handles m !! a = Some ha -> handles m !! b = Some hb ->
  operator_eq a b m = Ok (ptr ha =? ptr hb)%N m.
Proof.
  intros Ha Hb. unfold operator_eq.
  rewrite (bind_ok _ _ _ _ _ (get_live m a ha Ha)).
  by rewrite (bind_ok _ _ _ _ _ (get_live m b hb Hb)).
Qed.

(** [operator<] is a strict total order on handles that agrees with
    [operator==]: of [a < b], [a == b] and [b < a] exactly one is true,
    [a < a] is false and [<] is transitive.  The comparisons change
    nothing in the memory. *)
Theorem handle_order_is_strict_and_total (m : memory) (a b c : var)
    (ha hb hc : intrusive_ptr) :
  handles m !! a = Some ha ->
  handles m !! b = Some hb ->
  handles m !! c = Some hc ->
  exists before same after : bool,
    operator_lt a b m = Ok before m /\
    operator_eq a b m = Ok same m /\
    operator_lt b a m = Ok after m /\
    (before = true /\ same = false /\ after = false \/
     before = false /\ same = true /\ after = false \/
     before = false /\ same = false /\ after = true) /\
    operator_lt a a m = Ok false m /\
    (before = true -> operator_lt b c m = Ok true m ->
     operator_lt a c m = Ok true m).
Proof.
  intros Ha Hb Hc. exists (ptr ha <? ptr hb)%N, (ptr ha =? ptr hb)%N, (ptr hb <? ptr ha)%N.
  rewrite (operator_lt_live m a b ha hb), (operator_eq_live m a b ha hb),
    (operator_lt_live m b a hb ha), (operator_lt_live m a a ha ha),
    (operator_lt_live m b c hb hc), (operator_lt_live m a c ha hc) by done.
  do 3 (split; [done|]). split; [|split].
  - destruct (N.ltb_spec (ptr ha) (ptr hb)), (N.eqb_spec (ptr ha) (ptr hb)),
      (N.ltb_spec (ptr hb) (ptr ha)); try lia; auto.
  - by rewrite N.ltb_irrefl.
  - intros Hab [= Hbc]. f_equal.
    apply N.ltb_lt in Hab, Hbc. apply N.ltb_lt. lia.
Qed.

Lemma handle_order_is_strict_and_total_witness :
  exists before same after : bool,
    operator_lt 0%N 1%N (one_object 1 [(0%N, null_handle); (1%N, {| ptr := 1%N |})])
      = Ok before (one_object 1 [(0%N, null_handle); (1%N, {| ptr := 1%N |})]) /\
    (before = true /\ same = false /\ after = false \/
     before = false /\ same = true /\ after = false \/
     before = false /\ same = false /\ after = true).
Proof.
  destruct (handle_order_is_strict_and_total
              (one_object 1 [(0%N, null_handle); (1%N, {| ptr := 1%N |})])
              0%N 1%N 1%N null_handle {| ptr := 1%N |} {| ptr := 1%N |})
    as (before & same & after & Hlt & _ & _ & Hone & _).
  - reflexivity.
  - reflexivity.
  - reflexivity.
  - exists before, same, after. split; [exact Hlt|exact Hone].
Defined.

(** The six forms of [operator==] and [operator!=] agree: each [==] is
    true exactly when the handle and the other operand hold the same
    address, each [!=] is its negation, and the order of the operands does
    not matter.  A handle equals the address [get()] returns. *)
Theorem equality_compares_addresses (m : memory) (a b : var) (ha hb : intrusive_ptr) :
  handles m !! a = Some ha ->
  handles m !! b = Some hb ->
  exists same : bool,
    (same = true <-> ptr ha = ptr hb) /\
    operator_eq a b m = Ok same m /\
    operator_eq b a m = Ok same m /\
    operator_eq_raw a (ptr hb) m = Ok same m /\
    raw_operator_eq (ptr ha) b m = Ok same m /\
    operator_ne a b m = Ok (negb same) m /\
    operator_ne_raw a (ptr hb) m = Ok (negb same) m /\
    raw_operator_ne (ptr ha) b m = Ok (negb same) m /\
    (p ← get a; operator_eq_raw a p) m = Ok true m.
Proof.
  intros Ha Hb. exists (ptr ha =? ptr hb)%N.
  split; [apply N.eqb_eq|].
  rewrite (operator_eq_live m a b ha hb), (operator_eq_live m b a hb ha) by done.
  unfold operator_eq_raw, raw_operator_eq, operator_ne, operator_ne_raw, raw_operator_ne.
  rewrite !(bind_ok _ _ _ _ _ (get_live m a ha Ha)).
  rewrite !(bind_ok _ _ _ _ _ (get_live m b hb Hb)). cbv beta.
  rewrite ?(bind_ok _ _ _ _ _ (get_live m a ha Ha)).
  rewrite (N.eqb_sym (ptr hb) (ptr ha)), N.eqb_refl. by repeat split.
Qed.

Lemma equality_compares_addresses_witness :
  exists same : bool,
    (same = true <-> 1%N = 1%N) /\
    operator_eq 0%N 1%N
      (one_object 2 [(0%N, {| ptr := 1%N |}); (1%N, {| ptr := 1%N |})])
      = Ok same (one_object 2 [(0%N, {| ptr := 1%N |}); (1%N, {| ptr := 1%N |})]).
Proof.
  destruct (equality_compares_addresses
              (one_object 2 [(0%N, {| ptr := 1%N |}); (1%N, {| ptr := 1%N |})])
              0%N 1%N {| ptr := 1%N |} {| ptr := 1%N |})
    as (same & Hiff & Heq & _).
  - reflexivity.
  - reflexivity.
  - exists same. split; [exact Hiff|exact Heq].
Defined.

(** A copy compares equal to its source and both convert to the same
    [bool]; after a move the new handle equals the address the source
    held, and the source equals the null address and converts to
    [false]. *)
Theorem copy_equals_source_and_moved_from_is_null (m : memory) (x y : var)
    (h : intrusive_ptr) :
  handles m !! x = Some h ->
  handles m !! y = None ->
  (ptr h = nullptr \/ exists o, objects m !! ptr h = Some o) ->
  (exists m1,
     ctor_copy y x m = Ok tt m1 /\
     operator_eq x y m1 = Ok true m1 /\
     operator_ne x y m1 = Ok false m1 /\
     operator_lt x y m1 = Ok false m1 /\
     operator_bool y m1 = operator_bool x m1) /\
  (exists m2,
     ctor_move y x m = Ok tt m2 /\
     operator_eq_raw y (ptr h) m2 = Ok true m2 /\
     operator_eq_raw x nullptr m2 = Ok true m2 /\
     operator_bool x m2 = Ok false m2).
Proof.
  intros Hx Hy Hp. assert (y <> x) by congruence. split.
  - assert (exists m1, ctor_copy y x m = Ok tt m1 /\
              handles m1 !! x = Some h /\ handles m1 !! y = Some h)
      as (m1 & Hrun & Hx1 & Hy1).
    { destruct (decide (ptr h = nullptr)) as [Hnull|Hnn].
      - destruct h as [p]. cbn in Hnull. subst p.
        eexists. split; [by apply ctor_copy_null|]. cbn. by simplify_map_eq.
      - destruct Hp as [?|[o Ho]]; [done|].
        eexists. split; [by apply (ctor_copy_live m y x h o)|]. cbn. by simplify_map_eq. }
    exists m1. split; [done|].
    rewrite (operator_eq_live m1 x y h h), (operator_lt_live m1 x y h h) by done.
    unfold operator_ne, operator_bool.
    rewrite !(bind_ok _ _ _ _ _ (get_live m1 x h Hx1)).
    rewrite !(bind_ok _ _ _ _ _ (get_live m1 y h Hy1)).
    by rewrite !N.eqb_refl, N.ltb_irrefl.
  - eexists. split; [by apply ctor_move_live|].
    set (m2 := set_handles _ m).
    assert (handles m2 !! x = Some null_handle) as Hx2 by (subst m2; cbn; by simplify_map_eq).
    assert (handles m2 !! y = Some h) as Hy2 by (subst m2; cbn; by simplify_map_eq).
    clearbody m2. unfold operator_eq_raw, operator_bool.
    rewrite !(bind_ok _ _ _ _ _ (get_live m2 x _ Hx2)).
    rewrite !(bind_ok _ _ _ _ _ (get_live m2 y _ Hy2)).
    by rewrite N.eqb_refl.
Qed.

Lemma copy_equals_source_and_moved_from_is_null_witness :
  (exists m1,
     ctor_copy 1%N 0%N (one_object 1 [(0%N, {| ptr := 1%N |})]) = Ok tt m1 /\
     operator_eq 0%N 1%N m1 = Ok true m1) /\
  (exists m2,
     ctor_move 1%N 0%N (one_object 1 [(0%N, {| ptr := 1%N |})]) = Ok tt m2 /\
     operator_bool 0%N m2 = Ok false m2).
Proof.
  destruct (copy_equals_source_and_moved_from_is_null
              (one_object 1 [(0%N, {| ptr := 1%N |})]) 0%N 1%N {| ptr := 1%N |})
    as [(m1 & Hc & He & _) (m2 & Hm & _ & _ & Hb)].
  - reflexivity.
  - reflexivity.
  - right. exists {| ref_count := 1 |}. reflexivity.
  - split; [exists m1|exists m2]; split; assumption.
Defined.

(** ** Dereference *)

(** In a consistent memory [operator*] on a handle that is not null
    designates a live object, so it is defined; on a null handle it
    dereferences null.  [operator->] returns the address without a
    dereference and is defined on every handle. *)
Theorem dereference_of_a_handle (m : memory) (x : var) (h : intrusive_ptr) :
  consistent m ->
  handles m !! x = Some h ->
  operator_arrow x m = Ok (ptr h) m /\
  (ptr h <> nullptr ->
     operator_star x m = Ok (ptr h) m /\ is_Some (objects m !! ptr h)) /\
  (ptr h = nullptr -> operator_star x m = Fault null_dereference).
Proof.
  intros Hc Hx. unfold operator_arrow, operator_star.
  rewrite (bind_ok _ _ _ _ _ (get_live m x h Hx)).
  split; [by apply get_live|]. split.
  - intros Hp. destruct (handles_hold_objects m Hc x h Hx Hp) as [o Ho].
    split; [|by eexists]. unfold at_. by run.
  - intros ->. unfold at_. by run.
Qed.

Lemma dereference_of_a_handle_witness :
  operator_star 0%N (one_object 1 [(0%N, {| ptr := 1%N |})])
    = Ok 1%N (one_object 1 [(0%N, {| ptr := 1%N |})]).
Proof.
  destruct (dereference_of_a_handle
              (one_object 1 [(0%N, {| ptr := 1%N |})]) 0%N {| ptr := 1%N |})
    as (_ & Hstar & _).
  - split; cbn.
    + reflexivity.
    + intros x h Hx _. apply lookup_insert_Some in Hx as [[_ <-]|[_ Hx]].
      * eexists. reflexivity.
      * by rewrite lookup_empty in Hx.
    + intros p o Ho. apply lookup_singleton_Some in Ho as [<- <-]. vm_compute. reflexivity.
    + apply NoDup_nil_2.
    + intros p Hp. by apply elem_of_nil in Hp.
  - reflexivity.
  - apply Hstar. discriminate.
Defined.

(** ** The counter at its edges *)

(** [use_count()] is the counter cut to [unsigned int]: it lies below
    [2 ^ 32], equals the counter exactly when the counter is below
    [2 ^ 32], and reads zero exactly at the multiples of [2 ^ 32]. *)
Theorem use_count_is_the_counter_cut_to_unsigned_int (o : intrusive_ref_counter) :
  is_size_t (ref_count o) ->
  0 <= use_count o < 2 ^ unsigned_int_bits /\
  (use_count o = ref_count o <-> ref_count o < 2 ^ unsigned_int_bits) /\
  (use_count o = 0 <-> exists k, ref_count o = k * 2 ^ unsigned_int_bits).
Proof.
  intros [Hc0 Hc1]. unfold use_count, to_unsigned_int.
  assert (0 < 2 ^ unsigned_int_bits) as Hpos by reflexivity.
  pose proof (Z.mod_pos_bound (ref_count o) _ Hpos) as Hb.
  split; [done|]. split; [split|split].
  - intros Heq. lia.
  - intros Hlt. apply Z.mod_small. lia.
  - intros H0. exists (ref_count o / 2 ^ unsigned_int_bits).
    pose proof (Z.div_mod (ref_count o) (2 ^ unsigned_int_bits)). lia.
  - intros [k ->]. apply Z.mod_mul. lia.
Qed.

Lemma use_count_is_the_counter_cut_to_unsigned_int_witness :
  use_count {| ref_count := 2 ^ 32 |} = 0 <->
  exists k, ref_count {| ref_count := 2 ^ 32 |} = k * 2 ^ unsigned_int_bits.
Proof.
  apply (use_count_is_the_counter_cut_to_unsigned_int {| ref_count := 2 ^ 32 |}).
  split; [discriminate|reflexivity].
Defined.

(** [intrusive_ptr_release] on an object whose counter is zero wraps the
    counter to the largest [size_t] and deletes nothing.  So a handle that
    adopts, with [add_ref = false], an object of which no unit was taken
    leaves that object alive when it is destroyed, with the counter
    wrapped. *)
Theorem release_at_zero_wraps_and_keeps (m : memory) (x : var) (p : addr) :
  p <> nullptr ->
  objects m !! p = Some {| ref_count := 0 |} ->
  handles m !! x = None ->
  intrusive_ptr_release p m =
    Ok tt (set_objects <[p := {| ref_count := 2 ^ size_t_bits - 1 |}]> m) /\
  (ctor_raw x p false;; dtor x) m =
    Ok tt (set_objects <[p := {| ref_count := 2 ^ size_t_bits - 1 |}]> m).
Proof.
  intros Hp Ho Hx.
  assert (intrusive_ptr_release p m =
            Ok tt (set_objects <[p := {| ref_count := 2 ^ size_t_bits - 1 |}]> m)) as Hrel.
  { by rewrite (release_live m p {| ref_count := 0 |}). }
  split; [done|].
  rewrite (bind_ok _ _ _ _ _ (ctor_raw_adopt m x p Hx)).
  rewrite (dtor_live _ x {| ptr := p |} {| ref_count := 0 |});
    [|cbn; by simplify_map_eq|done|done].
  cbn. f_equal. unfold set_objects, set_handles; cbn. f_equal.
  by rewrite delete_insert_eq, delete_id.
Qed.

Lemma release_at_zero_wraps_and_keeps_witness :
  (ctor_raw 0%N 1%N false;; dtor 0%N) (one_object 0 [])
    = Ok tt (one_object (2 ^ 64 - 1) []).
Proof.
  destruct (release_at_zero_wraps_and_keeps (one_object 0 []) 0%N 1%N) as [_ Hrun].
  - discriminate.
  - reflexivity.
  - reflexivity.
  - rewrite Hrun. reflexivity.
Defined.

(** ** Copy and self assignment at a counter of [2 ^ 32] *)

Lemma wrap_and_copy_room (k : nat) :
  Z.of_nat k + 1 < 2 ^ size_t_bits ->
  exists m1,
    (ctor_raw 0%N 1%N true;; copies k 0%N 1%N) (one_object 0 []) = Ok tt m1 /\
    objects m1 = {[ 1%N := {| ref_count := Z.of_nat k + 1 |} ]} /\
    deleted m1 = [] /\
    (forall j, (j <= N.of_nat k)%N -> handles m1 !! j = Some {| ptr := 1%N |}) /\
    (forall j, (N.of_nat k < j)%N -> handles m1 !! j = None).
Proof.
  intros Hk. unfold_m. rewrite wrap_unreferenced_object.
  destruct (copies_count k (one_object 1 [(0%N, {| ptr := 1%N |})]) 0%N 1%N {| ptr := 1%N |} 1)
    as (m1 & Hrun & Hobj & Hdel & Hnew & Hold);
    [done|done|done|apply one_handle_rest_free|lia|lia|].
  exists m1. split; [done|]. split.
  { rewrite Hobj. cbn [ptr one_object objects]. rewrite insert_singleton_eq.
    do 2 f_equal. lia. }
  split; [done|]. split.
  - intros j Hj. destruct (decide (j = 0%N)) as [->|Hj0].
    + by rewrite Hold by lia.
    + apply Hnew. lia.
  - intros j Hj. rewrite Hold by lia. apply one_handle_rest_free. lia.
Qed.

(** The memory after one wrap and [2 ^ 32 - 1] copies: [2 ^ 32] handles
    hold the object, whose counter is [2 ^ 32]. *)
Lemma two_to_32_handles :
  exists m1,
    (ctor_raw 0%N 1%N true;; copies (Z.to_nat (2 ^ 32 - 1)) 0%N 1%N) (one_object 0 [])
      = Ok tt m1 /\
    objects m1 = {[ 1%N := {| ref_count := 2 ^ 32 |} ]} /\
    deleted m1 = [] /\
    (forall j, (j < 2 ^ 32)%N -> handles m1 !! j = Some {| ptr := 1%N |}) /\
    (forall j, (2 ^ 32 <= j)%N -> handles m1 !! j = None).
Proof.
  assert (Z.of_nat (Z.to_nat (2 ^ 32 - 1)) = 2 ^ 32 - 1) as Hk
    by (apply Z2Nat.id; discriminate).
  assert (N.of_nat (Z.to_nat (2 ^ 32 - 1)) = (2 ^ 32 - 1)%N) as HkN by lia.
  generalize dependent (Z.to_nat (2 ^ 32 - 1)). intros k Hk HkN.
  destruct (wrap_and_copy_room k) as (m1 & Hrun & Hobj & Hdel & Hh & Hfree);
    [rewrite Hk; reflexivity|].
  exists m1. split; [done|]. split.
  { rewrite Hobj, Hk. reflexivity. }
  split; [done|]. split.
  - intros j Hj. apply Hh. lia.
  - intros j Hj. apply Hfree. lia.
Qed.

(** C2. The claim fails on the code at a counter of [2 ^ 32].  One handle
    wraps an object and is copied [2 ^ 32 - 1] times, so [2 ^ 32] handles
    hold the object.  One more copy of the first handle takes the counter
    to [2 ^ 32 + 1]; the drop of that copy takes it back to [2 ^ 32],
    which [use_count()] reports as zero, and the release deletes the
    object: after copy and drop the counter is gone, while the source and
    the other handles still hold the address. *)
Theorem copy_then_drop_deletes_at_two_to_32 :
  exists m1 m2 m3,
    (ctor_raw 0%N 1%N true;; copies (Z.to_nat (2 ^ 32 - 1)) 0%N 1%N) (one_object 0 [])
      = Ok tt m1 /\
    objects m1 !! 1%N = Some {| ref_count := 2 ^ 32 |} /\
    (forall j, (j < 2 ^ 32)%N -> handles m1 !! j = Some {| ptr := 1%N |}) /\
    ctor_copy (2 ^ 32)%N 0%N m1 = Ok tt m2 /\
    objects m2 !! 1%N = Some {| ref_count := 2 ^ 32 + 1 |} /\
    dtor (2 ^ 32)%N m2 = Ok tt m3 /\
    objects m3 !! 1%N = None /\
    deleted m3 = [(1%N, of_intrusive_ref_counter)] /\
    (forall j, (j < 2 ^ 32)%N -> handles m3 !! j = Some {| ptr := 1%N |}).
Proof.
  destruct two_to_32_handles as (m1 & Hrun & Hobj & Hdel & Hh & Hfree).
  assert (objects m1 !! 1%N = Some {| ref_count := 2 ^ 32 |}) as Ho
    by (by rewrite Hobj).
  exists m1. do 2 eexists. split; [exact Hrun|]. split; [exact Ho|].
  split; [exact Hh|].
  rewrite (ctor_copy_live m1 (2 ^ 32)%N 0%N {| ptr := 1%N |} {| ref_count := 2 ^ 32 |});
    [|apply Hh; reflexivity|apply Hfree; reflexivity|discriminate|exact Ho].
  split; [reflexivity|]. cbn [ref_count ptr].
  split; [cbn; by rewrite lookup_insert_eq|].
  rewrite (dtor_live _ (2 ^ 32)%N {| ptr := 1%N |} {| ref_count := 2 ^ 32 + 1 |});
    [|cbn; by rewrite lookup_insert_eq|discriminate|cbn; by rewrite lookup_insert_eq].
  cbn zeta. cbn [ref_count ptr].
  replace (use_count _ =? 0) with true by (by vm_compute).
  split; [reflexivity|]. cbn [objects handles deleted set_objects set_handles].
  split; [apply lookup_delete_eq|]. split; [by rewrite Hdel|].
  intros j Hj. rewrite lookup_delete_ne by lia. rewrite lookup_insert_ne by lia.
  by apply Hh.
Qed.

(** C7. The claim fails on the code at a counter of [2 ^ 32].  With
    [2 ^ 32] handles on the object, [h = h] copies [h] into a temporary,
    which takes the counter to [2 ^ 32 + 1], and destroys the temporary,
    which takes it back to [2 ^ 32]; [use_count()] reports that as zero
    and the release deletes the object.  The handle still stores the
    address, of an object that is gone. *)
Theorem self_copy_assignment_deletes_at_two_to_32 :
  exists m1 m2,
    (ctor_raw 0%N 1%N true;; copies (Z.to_nat (2 ^ 32 - 1)) 0%N 1%N) (one_object 0 [])
      = Ok tt m1 /\
    objects m1 !! 1%N = Some {| ref_count := 2 ^ 32 |} /\
    (forall j, (j < 2 ^ 32)%N -> handles m1 !! j = Some {| ptr := 1%N |}) /\
    assign_copy 0%N 0%N m1 = Ok tt m2 /\
    objects m2 !! 1%N = None /\
    deleted m2 = [(1%N, of_intrusive_ref_counter)] /\
    handles m2 !! 0%N = Some {| ptr := 1%N |} /\
    operator_star 0%N m2 = Fault (dangling 1%N).
Proof.
  destruct two_to_32_handles as (m1 & Hrun & Hobj & Hdel & Hh & Hfree).
  assert (objects m1 !! 1%N = Some {| ref_count := 2 ^ 32 |}) as Ho
    by (by rewrite Hobj).
  pose proof (Hh 0%N eq_refl) as H0.
  exists m1. eexists. split; [exact Hrun|]. split; [exact Ho|].
  split; [exact Hh|]. unfold assign_copy.
  rewrite (construct_swap_destroy _ m1 _ 0%N {| ptr := 1%N |} {| ptr := 1%N |} H0
             (ctor_copy_live _ _ 0%N {| ptr := 1%N |} {| ref_count := 2 ^ 32 |}
                H0 (temporary_is_free m1) ltac:(discriminate) Ho) eq_refl).
  cbn [ptr ref_count]. change (negb (1 =? nullptr)%N) with true. cbn iota.
  erewrite release_live; [|discriminate|cbn; by rewrite lookup_insert_eq].
  cbn zeta. cbn [ref_count].
  replace (use_count _ =? 0) with true by (by vm_compute).
  split; [reflexivity|]. cbn [objects handles deleted set_objects set_handles].
  split; [apply lookup_delete_eq|]. split; [by rewrite Hdel|].
  split; [by rewrite lookup_insert_eq|].
  unfold operator_star, get, get_ptr, at_. unfold_m.
  cbn [objects handles deleted]. rewrite lookup_insert_eq. cbn [ptr].
  rewrite decide_False by discriminate. cbn [objects]. by rewrite lookup_delete_eq.
Qed.

(** A program of any length on one handle has few handles: the bound is on
    the handles alive, not on the number of statements. *)
Lemma swaps_have_few_handles (n : nat) (m : memory) (x : var) (h : intrusive_ptr) :
  handles m !! x = Some h ->
  Z.of_nat (size (handles m)) + 1 < 2 ^ unsigned_int_bits ->
  few_handles m (replicate n (call_swap x x)).
Proof.
  intros Hx Hsize. induction n as [|n IH]; cbn [replicate few_handles]; [done|].
  split; [done|]. intros m' Hm'. cbn [exec] in Hm'.
  rewrite (swap_live m x x h h) in Hm' by done. injection Hm' as <-.
  rewrite set_handles_same; [done|].
  rewrite insert_insert_eq. by apply insert_id.
Qed.
